(** * quant_framework: the back-test engine and its position manager

    A shallow embedding of [src/position_manager.py], of the simulation
    loop of [src/backtest_engine.py], of the figures of
    [src/performace_check.py] and of the signal loop of [src/strategy.py].

    Modelling decisions, all visible in the definitions below:
    - Python floats are exact rationals [Q]; IEEE rounding is outside the
      model.  [round(x, n)] is round-half-to-even on the exact value.
    - [Q] has neither NaN nor infinities.  Two places of the program produce
      them and are represented on their other side only: a signal frame in
      which only some rows lack a level holds NaN there (see [signal]), and
      a division of a numpy float by a leverage of zero gives an infinity
      instead of an exception (see [close_position]).
    - time stamps are integers ([Z]); [isoformat] followed by
      [pd.to_datetime] is the identity on them.
    - the MongoDB collections [positions] and [trades] are lists in insertion
      order; [_id] is a natural number handed out by the store.
    - every driver call may raise: the world carries a schedule of faults that
      is consumed one entry per driver call, and a ghost log of the store after
      each write.
    - the values of [Config] (module [Config_q]) are the fields of the
      [manager] record, as [PositionManager.__init__] copies them. *)

From Stdlib Require Import QArith Qabs Qround Qminmax ZArith List String Ascii Bool Lia Lqa.
Import ListNotations.

Open Scope Q_scope.

(* ------------------------------------------------------------------ *)
(** ** Numbers and strings as Python has them *)

(** [a < b] on floats, as a boolean. *)
Definition Qlt_bool (a b : Q) : bool := negb (Qle_bool b a).

(** Nearest integer, ties to the even one. *)
Definition round_half_even (x : Q) : Z :=
  let f := Qfloor x in
  match Qcompare (x - inject_Z f) (1 # 2) with
  | Lt => f
  | Gt => (f + 1)%Z
  | Eq => if Z.even f then f else (f + 1)%Z
  end.

(** Python's [round(x, ndigits)] on a float. *)
Definition round_ndigits (x : Q) (ndigits : Z) : Q :=
  inject_Z (round_half_even (x * (10 # 1) ^ ndigits)) / (10 # 1) ^ ndigits.

(** [str.lower] on ASCII text. *)
Definition lower_ascii (c : ascii) : ascii :=
  let n := nat_of_ascii c in
  if (65 <=? n)%nat && (n <=? 90)%nat then ascii_of_nat (n + 32) else c.

Fixpoint lower (s : string) : string :=
  match s with
  | EmptyString => EmptyString
  | String c r => String (lower_ascii c) (lower r)
  end.

(* ------------------------------------------------------------------ *)
(** ** Documents *)

Inductive status := Open | Closed.

Definition status_eqb (a b : status) : bool :=
  match a, b with
  | Open, Open | Closed, Closed => true
  | _, _ => false
  end.

(** A document of the [positions] collection.  [stop_loss] and [take_profit]
    are read with [dict.get] and may be missing. *)
Record position := {
  p_id : nat;
  p_symbol : string;
  p_side : string;
  p_qty : Q;
  p_entry_price : Q;
  p_atr : Q;
  p_stop_loss : option Q;
  p_take_profit : option Q;
  p_open_time : Z;
  p_status : status
}.

(** A document of the [trades] collection. *)
Record trade := {
  t_symbol : string;
  t_side : string;
  t_qty : Q;
  t_entry_price : Q;
  t_exit_price : Q;
  t_open_time : Z;
  t_close_time : Z;
  t_gross_pnl : Q;
  t_fee : Q;
  t_pnl : Q;
  t_reason : string
}.

(** A row of the bar frame; [atr_14] is [None] where pandas has NaN. *)
Record bar := {
  b_timestamp : Z;
  b_open : Q;
  b_high : Q;
  b_low : Q;
  b_close : Q;
  b_atr_14 : option Q
}.

(** A document of the [signals] collection, as [run] reads it from the rows
    of its frame.  A level is [None] where the row holds Python's [None]:
    that is the case when no signal of the frame carries a number for the
    level.  In a frame where some signals carry the level and others do not,
    pandas holds NaN for the others; [open_position] then stores NaN, and a
    NaN in the store makes the comparison of the limit check false.  Such a
    frame is not represented: the model is that of a frame whose signals all
    carry a level or all lack it, and the bound on the stored risk is stated
    for signals that carry both levels ([carries_levels]). *)
Record signal := {
  s_timestamp : Z;
  s_signal_type : string;
  s_value : Q;
  s_stop_loss : option Q;
  s_take_profit : option Q
}.

(** The fields [PositionManager.__init__] copies from [Config]. *)
Record manager := {
  slippage : Q;
  fee_rate : Q;
  risk_per_trade : Q;
  stop_loss_atr : Q;
  take_profit_atr : Q;
  leverage : Q;
  symbol_precision : Z;
  capital : Q;
  max_positions : Z;
  max_risk : Q
}.

(** What [check_exit_conditions] returns: [(False, None, None, None)] or
    [(True, exit_price, exit_time, reason)]. *)
Inductive exit_result :=
| NotExited
| Exited (exit_price : Q) (exit_time : Z) (reason : string).

(* ------------------------------------------------------------------ *)
(** ** The pure part of the position manager *)

Section Pure.
Variable pm : manager.

(** [calculate_position_size]: the float division raises
    [ZeroDivisionError] on a zero divisor, and the handler returns 0. *)
Definition calculate_position_size
           (symbol : string) (entry_price atr cap : Q) : Q :=
  let risk_amount := cap * risk_per_trade pm in
  let stop_loss_distance := atr * stop_loss_atr pm in
  let divisor := stop_loss_distance * leverage pm in
  if Qeq_bool divisor 0 then 0
  else round_ndigits (risk_amount / divisor) (symbol_precision pm).

(** The body of the loop of [check_exit_conditions] for one bar, once
    [stop] and [take] are known to be present. *)
Definition exit_on_bar (side : string) (stop take : Q) (b : bar)
  : exit_result :=
  if String.eqb side "long" then
    if Qle_bool (b_low b) stop then
      Exited (stop * (1 - slippage pm)) (b_timestamp b) "stop_loss"
    else if Qle_bool take (b_high b) then
      Exited (take * (1 - slippage pm)) (b_timestamp b) "take_profit"
    else NotExited
  else if String.eqb side "short" then
    if Qle_bool stop (b_high b) then
      Exited (Qmax (b_open b) stop * (1 + slippage pm))
             (b_timestamp b) "stop_loss"
    else if Qle_bool (b_low b) take then
      Exited (Qmin (b_open b) take * (1 + slippage pm))
             (b_timestamp b) "take_profit"
    else NotExited
  else NotExited.

(** The [for j in idx_positions] loop. *)
Fixpoint scan_bars (pos : position) (rows : list bar) : exit_result :=
  match rows with
  | [] => NotExited
  | b :: rest =>
      match p_stop_loss pos, p_take_profit pos with
      | Some stop, Some take =>
          match exit_on_bar (lower (p_side pos)) stop take b with
          | Exited px t r => Exited px t r
          | NotExited => scan_bars pos rest
          end
      | _, _ => scan_bars pos rest
      end
  end.

(** The rows of [df] at or after [entry_time]. *)
Definition since (entry_time : Z) (df : list bar) : list bar :=
  filter (fun b => (entry_time <=? b_timestamp b)%Z) df.

Definition check_exit_conditions (pos : position) (df : list bar)
  : exit_result :=
  scan_bars pos (since (p_open_time pos) df).

End Pure.

(* ------------------------------------------------------------------ *)
(** ** The store and the effects of the driver *)

Record store := {
  positions : list position;
  trades : list trade;
  next_id : nat
}.

(** The writes the driver performs. *)
Inductive write :=
| InsertPosition (p : position)
| UpdateStatus (id : nat)
| InsertTrade (t : trade).

(** [faults]: one entry per coming driver call, [true] where the call raises;
    an exhausted schedule means no more faults.  [journal]: the store after
    each write, oldest first (ghost state, never read by the program). *)
Record world := {
  db : store;
  faults : list bool;
  journal : list (write * store)
}.

(** A world whose driver never raises. *)
Definition reliable (s : store) : world :=
  {| db := s; faults := []; journal := [] |}.

Inductive outcome (A : Type) :=
| Returned (a : A)
| Raised.
Arguments Returned {A} a.
Arguments Raised {A}.

Definition M (A : Type) : Type := world -> outcome A * world.

Definition ret {A} (a : A) : M A := fun w => (Returned a, w).

Definition raise {A} : M A := fun w => (Raised, w).

Definition bind {A B} (m : M A) (k : A -> M B) : M B :=
  fun w =>
    match m w with
    | (Returned a, w') => k a w'
    | (Raised, w') => (Raised, w')
    end.

(** [try: body except Exception: handler]. *)
Definition try_except {A} (body handler : M A) : M A :=
  fun w =>
    match body w with
    | (Returned a, w') => (Returned a, w')
    | (Raised, w') => handler w'
    end.

Notation "x <- m ;; k" := (bind m (fun x => k))
  (at level 61, m at next level, right associativity).
Notation "m ;;; k" := (bind m (fun _ => k))
  (at level 61, right associativity).

Fixpoint for_each {A} (body : A -> M unit) (l : list A) : M unit :=
  match l with
  | [] => ret tt
  | a :: rest => body a ;;; for_each body rest
  end.

(** Every driver call first consults the schedule. *)
Definition driver_call : M unit :=
  fun w =>
    match faults w with
    | [] => (Returned tt, w)
    | f :: rest =>
        (if f then Raised else Returned tt,
         {| db := db w; faults := rest; journal := journal w |})
    end.

Definition commit (ev : write) (s : store) : M unit :=
  fun w =>
    (Returned tt,
     {| db := s; faults := faults w; journal := journal w ++ [(ev, s)] |}).

Definition is_open (p : position) : bool := status_eqb (p_status p) Open.

(** [positions.find(query)] and [positions.find_one(query)]. *)
Definition find (query : position -> bool) : M (list position) :=
  driver_call ;;; fun w => (Returned (filter query (positions (db w))), w).

Definition find_one (query : position -> bool) : M (option position) :=
  driver_call ;;; fun w => (Returned (List.find query (positions (db w))), w).

Definition with_id (id : nat) (p : position) : position :=
  {| p_id := id; p_symbol := p_symbol p; p_side := p_side p;
     p_qty := p_qty p; p_entry_price := p_entry_price p; p_atr := p_atr p;
     p_stop_loss := p_stop_loss p; p_take_profit := p_take_profit p;
     p_open_time := p_open_time p; p_status := p_status p |}.

Definition with_status (st : status) (p : position) : position :=
  {| p_id := p_id p; p_symbol := p_symbol p; p_side := p_side p;
     p_qty := p_qty p; p_entry_price := p_entry_price p; p_atr := p_atr p;
     p_stop_loss := p_stop_loss p; p_take_profit := p_take_profit p;
     p_open_time := p_open_time p; p_status := st |}.

(** [positions.insert_one(doc)]: the store hands out the [_id]. *)
Definition insert_position (doc : position) : M nat :=
  driver_call ;;;
  fun w =>
    let id := next_id (db w) in
    let p := with_id id doc in
    (commit (InsertPosition p)
            {| positions := positions (db w) ++ [p];
               trades := trades (db w);
               next_id := S id |} ;;; ret id) w.

(** [$set status] on the first document whose [_id] matches. *)
Fixpoint set_status (id : nat) (st : status) (ps : list position)
  : list position :=
  match ps with
  | [] => []
  | p :: rest =>
      if Nat.eqb (p_id p) id then with_status st p :: rest
      else p :: set_status id st rest
  end.

Definition update_one_status (id : nat) (st : status) : M unit :=
  driver_call ;;;
  fun w =>
    commit (UpdateStatus id)
           {| positions := set_status id st (positions (db w));
              trades := trades (db w);
              next_id := next_id (db w) |} w.

Definition insert_trade (t : trade) : M unit :=
  driver_call ;;;
  fun w =>
    commit (InsertTrade t)
           {| positions := positions (db w);
              trades := trades (db w) ++ [t];
              next_id := next_id (db w) |} w.

(* ------------------------------------------------------------------ *)
(** ** The stateful part of the position manager *)

Section Manager.
Variable pm : manager.

Definition get_open_positions : M (list position) :=
  try_except (find is_open) (ret []).

(** The [for p in positions] loop of [check_position_limit];
    [p['stop_loss']] raises when the field is missing. *)
Fixpoint add_risks (total_risk : Q) (ps : list position) : option Q :=
  match ps with
  | [] => Some total_risk
  | p :: rest =>
      match p_stop_loss p with
      | None => None
      | Some p_stop =>
          add_risks
            (total_risk + Qabs (p_entry_price p - p_stop) * p_qty p) rest
      end
  end.

(** The stop level [check_position_limit] derives for the candidate. *)
Definition stop_loss_price (side : string) (entry_price atr : Q) : Q :=
  if String.eqb side "long" then entry_price - atr * stop_loss_atr pm
  else entry_price + atr * stop_loss_atr pm.

Definition check_position_limit
           (symbol side : string) (entry_price atr : Q) : M (option Q) :=
  try_except
    (open_positions <- get_open_positions ;;
     let cap := capital pm in
     let qty := calculate_position_size pm symbol entry_price atr cap in
     if Qle_bool qty 0 then ret None
     else if (max_positions pm <=? Z.of_nat (List.length open_positions))%Z
     then ret None
     else
       match add_risks 0 open_positions with
       | None => raise
       | Some total_risk =>
           let new_risk :=
             Qabs (entry_price - stop_loss_price side entry_price atr) * qty
           in
           if Qlt_bool (max_risk pm * cap) (total_risk + new_risk)
           then ret None
           else ret (Some qty)
       end)
    (ret None).

(** The query of [has_open_position]. *)
Definition same_open (symbol side : string) (entry_price : Q)
           (p : position) : bool :=
  String.eqb (p_symbol p) symbol && String.eqb (p_side p) side
  && Qeq_bool (p_entry_price p) entry_price && is_open p.

Definition has_open_position
           (symbol side : string) (entry_price : Q) : M bool :=
  try_except
    (pos <- find_one (same_open symbol side entry_price) ;;
     ret (match pos with Some _ => true | None => false end))
    (ret false).

Definition position_doc (symbol side : string) (entry_price : Q)
           (entry_time : Z) (qty atr : Q) (stop_loss take_profit : option Q)
  : position :=
  {| p_id := 0;
     p_symbol := symbol;
     p_side := side;
     p_qty := qty;
     p_entry_price := entry_price;
     p_atr := atr;
     p_stop_loss := Some (match stop_loss with Some x => x | None => 0 end);
     p_take_profit :=
       Some (match take_profit with Some x => x | None => 0 end);
     p_open_time := entry_time;
     p_status := Open |}.

Definition open_position (symbol side : string) (entry_price : Q)
           (entry_time : Z) (qty atr : Q) (stop_loss take_profit : option Q)
  : M (option position) :=
  let doc := position_doc symbol side entry_price entry_time qty atr
                          stop_loss take_profit in
  try_except
    (inserted_id <- insert_position doc ;;
     ret (Some (with_id inserted_id doc)))
    (ret None).

Definition gross_pnl_of (side : string) (entry_price exit_price qty : Q)
  : Q :=
  if String.eqb side "long" then (exit_price - entry_price) * qty
  else (entry_price - exit_price) * qty.

Definition trade_doc (p : position) (exit_price : Q) (exit_time : Z)
           (reason : string) : trade :=
  let side := p_side p in
  let entry_price := p_entry_price p in
  let qty := p_qty p in
  let gross_pnl := gross_pnl_of side entry_price exit_price qty in
  let fee :=
    (Qabs entry_price + Qabs exit_price) * qty * fee_rate pm / leverage pm
  in
  let pnl := gross_pnl - fee in
  {| t_symbol := p_symbol p;
     t_side := side;
     t_qty := qty;
     t_entry_price := entry_price;
     t_exit_price := exit_price;
     t_open_time := p_open_time p;
     t_close_time := exit_time;
     t_gross_pnl := gross_pnl;
     t_fee := fee;
     t_pnl := pnl;
     t_reason := reason |}.

(** [close_position], on Python floats: the division by [leverage] raises
    on zero, before any write.  Where the exit price is a numpy float (the
    forced close, which reads it with [iloc], and the exits of a short
    position priced from the open of the bar) the division by zero gives an
    infinity instead, the status is updated and the trade inserted: that
    reading is not represented, and what is stated about the trade and the
    status such a call writes is stated for a leverage that is not zero. *)
Definition close_position (position_id : nat) (exit_price : Q)
           (exit_time : Z) (reason : string) : M (option trade) :=
  try_except
    (found <- find_one (fun p => Nat.eqb (p_id p) position_id) ;;
     match found with
     | None => ret None
     | Some p =>
         if Qeq_bool (leverage pm) 0 then raise
         else
           let doc := trade_doc p exit_price exit_time reason in
           update_one_status position_id Closed ;;;
           insert_trade doc ;;;
           ret (Some doc)
     end)
    (ret None).

End Manager.

(* ------------------------------------------------------------------ *)
(** ** The simulation loop of [BacktestEngine.run], for one symbol *)

Section Engine.
Variable pm : manager.
Variable symbol : string.

(** The rows [run] hands to [check_exit_conditions] for [pos]. *)
Definition data_since_entry (df_processed : list bar) (pos : position)
  : list bar :=
  since (p_open_time pos) df_processed.

(** The body of [for pos in open_positions] in the exit phase. *)
Definition exit_position (df_processed : list bar) (pos : position)
  : M unit :=
  match check_exit_conditions pm pos (data_since_entry df_processed pos) with
  | Exited exit_price exit_time reason =>
      close_position pm (p_id pos) exit_price exit_time reason ;;; ret tt
  | NotExited => ret tt
  end.

Definition exit_phase (df_processed : list bar) : M unit :=
  open_positions <- get_open_positions ;;
  for_each (exit_position df_processed) open_positions.

(** The body of the [while] loop for one signal; the levels of the signal
    are handed to [open_position] as the row of the frame holds them (see
    [signal]). *)
Definition admit_signal (b : bar) (sg : signal) : M unit :=
  let current_time := b_timestamp b in
  let signal_type := s_signal_type sg in
  let entry_price := s_value sg in
  match b_atr_14 b with
  | None => ret tt
  | Some atr_val =>
      qty <- check_position_limit pm symbol signal_type entry_price atr_val ;;
      match qty with
      | Some q =>
          if negb (Qeq_bool q 0) && Qlt_bool 0 q then
            dup <- has_open_position symbol signal_type entry_price ;;
            if dup then ret tt
            else
              open_position symbol signal_type entry_price current_time
                            q atr_val (s_stop_loss sg) (s_take_profit sg)
              ;;; ret tt
          else ret tt
      | None => ret tt
      end
  end.

(** [while current_signal and current_signal.timestamp <= current_time];
    returns what is left of the signal cursor. *)
Fixpoint entry_phase (b : bar) (sigs : list signal) : M (list signal) :=
  match sigs with
  | [] => ret []
  | sg :: rest =>
      if (s_timestamp sg <=? b_timestamp b)%Z
      then admit_signal b sg ;;; entry_phase b rest
      else ret sigs
  end.

(** [for idx, bar in df_processed.iterrows()]. *)
Fixpoint bar_loop (df_processed rows : list bar) (sigs : list signal)
  : M (list signal) :=
  match rows with
  | [] => ret sigs
  | b :: rest =>
      exit_phase df_processed ;;;
      left <- entry_phase b sigs ;;
      bar_loop df_processed rest left
  end.

(** [df.iloc[-1]]; raises on an empty frame. *)
Fixpoint iloc_last (df : list bar) : option bar :=
  match df with
  | [] => None
  | [b] => Some b
  | _ :: rest => iloc_last rest
  end.

(** The forced close; [trade['pnl']] raises when [close_position]
    returned [None]. *)
Definition force_close_position (last_bar : bar) (pos : position) : M unit :=
  t <- close_position pm (p_id pos) (b_close last_bar)
                      (b_timestamp last_bar) "End of Backtest" ;;
  match t with
  | Some _ => ret tt
  | None => raise
  end.

Definition force_close (df_processed : list bar) : M unit :=
  open_positions <- get_open_positions ;;
  if (0 <? List.length open_positions)%nat then
    match iloc_last df_processed with
    | Some last_bar => for_each (force_close_position last_bar) open_positions
    | None => raise
    end
  else ret tt.

End Engine.

Section Symbol.
Variable pm : manager.
Variable symbol : string.

(** [dropna(subset=['atr_14'])]. *)
Definition dropna (df : list bar) : list bar :=
  filter (fun b => match b_atr_14 b with Some _ => true | None => false end)
         df.

(** The body of [for symbol in self.symbols], from the merged frame and the
    sorted signals of the symbol on; [continue] is [ret tt]. *)
Definition backtest_symbol (df : list bar) (signals_data : list signal)
  : M unit :=
  let df_processed := dropna df in
  match df_processed, signals_data with
  | [], _ => ret tt
  | _, [] => ret tt
  | _, _ =>
      bar_loop pm symbol df_processed df_processed signals_data ;;;
      force_close pm df_processed
  end.

End Symbol.

(** A caller of the two mutators of the manager, for properties of every
    sequence of calls. *)
Inductive call :=
| CallOpen (symbol side : string) (entry_price : Q) (entry_time : Z)
           (qty atr : Q) (stop_loss take_profit : option Q)
| CallClose (position_id : nat) (exit_price : Q) (exit_time : Z)
            (reason : string).

Definition perform (pm : manager) (c : call) : M unit :=
  match c with
  | CallOpen symbol side entry_price entry_time qty atr stop_loss take_profit =>
      open_position symbol side entry_price entry_time qty atr
                    stop_loss take_profit ;;; ret tt
  | CallClose position_id exit_price exit_time reason =>
      close_position pm position_id exit_price exit_time reason ;;; ret tt
  end.

(** ** Measures used in the statements *)

(** The documents with status [open], in store order. *)
Definition open_positions_of (s : store) : list position :=
  filter is_open (positions s).

Definition open_count (s : store) : nat := List.length (open_positions_of s).

(** The risk of a position in the words of the specification:
    [|entry - stop| * quantity] with the stop level the document stores;
    nothing for a document without one. *)
Definition position_risk (p : position) : Q :=
  match p_stop_loss p with
  | Some stop => Qabs (p_entry_price p - stop) * p_qty p
  | None => 0
  end.

(** The sum of the specification over a list of positions; it is written
    without the loop of [check_position_limit]. *)
Fixpoint risk_sum (ps : list position) : Q :=
  match ps with
  | [] => 0
  | p :: rest => position_risk p + risk_sum rest
  end.

(** A signal document that carries a number for both levels. *)
Definition carries_levels (sg : signal) : Prop :=
  s_stop_loss sg <> None /\ s_take_profit sg <> None.

(** Unique identifiers, all below the next one to hand out. *)
Definition store_wf (s : store) : Prop :=
  NoDup (map p_id (positions s))
  /\ Forall (fun p => (p_id p < next_id s)%nat) (positions s).

(** Reading operations leave the store and the journal alone and consume
    one entry of the schedule. *)
Definition only_reads (w w' : world) : Prop :=
  db w' = db w /\ journal w' = journal w /\ faults w' = tl (faults w).

(** What [check_position_limit] has established when it returns a size. *)
Definition limit_passed (pm : manager) (symbol side : string)
           (entry_price atr : Q) (seen : list position) (q : Q) : Prop :=
  q = calculate_position_size pm symbol entry_price atr (capital pm)
  /\ 0 < q
  /\ (Z.of_nat (List.length seen) < max_positions pm)%Z
  /\ exists total_risk,
      add_risks 0 seen = Some total_risk
      /\ total_risk
         + Qabs (entry_price - stop_loss_price pm side entry_price atr) * q
         <= max_risk pm * capital pm.

(** The six ways a call of [close_position] can go. *)
Inductive close_case (pm : manager) (position_id : nat) (exit_price : Q)
          (exit_time : Z) (reason : string) (w : world)
  : outcome (option trade) -> world -> Prop :=
| CloseLookupFault w' :
    hd false (faults w) = true ->
    db w' = db w -> journal w' = journal w -> faults w' = tl (faults w) ->
    close_case pm position_id exit_price exit_time reason w (Returned None) w'
| CloseNotFound w' :
    hd false (faults w) = false ->
    List.find (fun p => Nat.eqb (p_id p) position_id) (positions (db w))
    = None ->
    db w' = db w -> journal w' = journal w -> faults w' = tl (faults w) ->
    close_case pm position_id exit_price exit_time reason w (Returned None) w'
| CloseZeroLeverage p w' :
    hd false (faults w) = false ->
    List.find (fun p => Nat.eqb (p_id p) position_id) (positions (db w))
    = Some p ->
    leverage pm == 0 ->
    db w' = db w -> journal w' = journal w -> faults w' = tl (faults w) ->
    close_case pm position_id exit_price exit_time reason w (Returned None) w'
| CloseUpdateFault p w' :
    hd false (faults w) = false ->
    List.find (fun p => Nat.eqb (p_id p) position_id) (positions (db w))
    = Some p ->
    ~ leverage pm == 0 ->
    hd false (tl (faults w)) = true ->
    db w' = db w -> journal w' = journal w ->
    faults w' = tl (tl (faults w)) ->
    close_case pm position_id exit_price exit_time reason w (Returned None) w'
| CloseInsertFault p w' :
    hd false (faults w) = false ->
    List.find (fun p => Nat.eqb (p_id p) position_id) (positions (db w))
    = Some p ->
    ~ leverage pm == 0 ->
    hd false (tl (faults w)) = false ->
    hd false (tl (tl (faults w))) = true ->
    db w' = {| positions := set_status position_id Closed (positions (db w));
               trades := trades (db w);
               next_id := next_id (db w) |} ->
    journal w' = (journal w ++ [(UpdateStatus position_id, db w')])%list ->
    faults w' = tl (tl (tl (faults w))) ->
    close_case pm position_id exit_price exit_time reason w (Returned None) w'
| CloseDone p w' s1 :
    hd false (faults w) = false ->
    List.find (fun p => Nat.eqb (p_id p) position_id) (positions (db w))
    = Some p ->
    ~ leverage pm == 0 ->
    hd false (tl (faults w)) = false ->
    hd false (tl (tl (faults w))) = false ->
    s1 = {| positions := set_status position_id Closed (positions (db w));
            trades := trades (db w);
            next_id := next_id (db w) |} ->
    db w' = {| positions := positions s1;
               trades := (trades (db w)
                          ++ [trade_doc pm p exit_price exit_time reason])%list;
               next_id := next_id (db w) |} ->
    journal w'
    = (journal w
       ++ [(UpdateStatus position_id, s1);
           (InsertTrade (trade_doc pm p exit_price exit_time reason),
            db w')])%list ->
    faults w' = tl (tl (tl (faults w))) ->
    close_case pm position_id exit_price exit_time reason w
               (Returned (Some (trade_doc pm p exit_price exit_time reason)))
               w'.

(* ------------------------------------------------------------------ *)
(** ** Predicates used in the statements *)

(** A closed document is never touched again. *)
Definition frozen (ps ps' : list position) : Prop :=
  forall i p, nth_error ps i = Some p -> p_status p = Closed ->
              nth_error ps' i = Some p.

(** [m] keeps [J]. *)
Definition preserves {A} (J : world -> Prop) (m : M A) : Prop :=
  forall w, J w -> J (snd (m w)).

(** [m] never lets an exception escape. *)
Definition returns {A} (m : M A) : Prop :=
  forall w, exists a, fst (m w) = Returned a.

(** The store after [open_position] has inserted [p]. *)
Definition inserted (s : store) (p : position) : store :=
  {| positions := positions s ++ [p];
     trades := trades s;
     next_id := S (next_id s) |}.

(** No more than [max_positions] positions are open in [s]. *)
Definition within_limit (pm : manager) (s : store) : Prop :=
  (Z.of_nat (open_count s) <= max_positions pm)%Z.

(** The invariant behind the bound on open positions: a driver without
    faults, a store within the limit, and a journal of such stores. *)
Definition count_invariant (pm : manager) (w : world) : Prop :=
  faults w = []
  /\ within_limit pm (db w)
  /\ Forall (fun e => within_limit pm (snd e)) (journal w).

(** The risk of [p] measured to the stop level the limit check derives. *)
Definition candidate_risk (pm : manager) (p : position) : Q :=
  Qabs (p_entry_price p
        - stop_loss_price pm (p_side p) (p_entry_price p) (p_atr p))
  * p_qty p.

(** What holds of the store [s'] right after the insertion of [p]: the
    positions that were open before all store a stop level, their risk plus
    the risk of [p] at the distance [atr * stop_loss_atr] is within the
    cap, and so is the risk of all open positions when the stored stop of
    [p] lies no farther from its entry than that distance. *)
Definition risk_checked (pm : manager) (p : position) (s' : store) : Prop :=
  exists before,
    positions s' = (before ++ [p])%list
    /\ Forall (fun q => p_stop_loss q <> None) (filter is_open before)
    /\ risk_sum (filter is_open before)
       + Qabs (p_atr p * stop_loss_atr pm) * p_qty p
       <= max_risk pm * capital pm
    /\ forall stop,
        p_stop_loss p = Some stop ->
        Qabs (p_entry_price p - stop) <= Qabs (p_atr p * stop_loss_atr pm) ->
        risk_sum (open_positions_of s') <= max_risk pm * capital pm.

(** The invariant behind the bound on risk: every insertion recorded in the
    journal was let through by the limit check. *)
Definition risk_invariant (pm : manager) (w : world) : Prop :=
  faults w = []
  /\ Forall (fun e => match fst e with
                      | InsertPosition p => risk_checked pm p (snd e)
                      | _ => True
                      end) (journal w).

(** A driver without faults over a well-formed store. *)
Definition sound (w : world) : Prop := faults w = [] /\ store_wf (db w).

(** The trade of the forced close of [p] on [last_bar]. *)
Definition forced_trade (pm : manager) (last_bar : bar) (p : position)
  : trade :=
  trade_doc pm p (b_close last_bar) (b_timestamp last_bar) "End of Backtest".

(* ------------------------------------------------------------------ *)
(** ** Sample data: the scenario of the specification *)

Module Sample.

Definition pm : manager :=
  {| slippage := 1 # 1000;
     fee_rate := 4 # 10000;
     risk_per_trade := 1 # 100;
     stop_loss_atr := 2;
     take_profit_atr := 3;
     leverage := 1;
     symbol_precision := 3;
     capital := 10000;
     max_positions := 5;
     max_risk := 5 # 100 |}.

Definition mkbar (t : Z) (o h l c : Q) : bar :=
  {| b_timestamp := t; b_open := o; b_high := h; b_low := l; b_close := c;
     b_atr_14 := Some 2 |}.

Definition empty : store := {| positions := []; trades := []; next_id := 0 |}.

(** Entry 100, stop 96, take 106, opened at time 1. *)
Definition long_position (st : status) : position :=
  {| p_id := 0; p_symbol := "BTC/USDT"; p_side := "long"; p_qty := 25;
     p_entry_price := 100; p_atr := 2; p_stop_loss := Some 96;
     p_take_profit := Some 106; p_open_time := 1; p_status := st |}.

Definition short_position : position :=
  {| p_id := 1; p_symbol := "BTC/USDT"; p_side := "short"; p_qty := 25;
     p_entry_price := 100; p_atr := 2; p_stop_loss := Some 104;
     p_take_profit := Some 94; p_open_time := 1; p_status := Open |}.

Definition one (st : status) : store :=
  {| positions := [long_position st]; trades := []; next_id := 1 |}.

(** Three quiet bars, then one that falls through the stop at time 4. *)
Definition df : list bar :=
  [ mkbar 1 100 101 99 100;
    mkbar 2 100 102 98 101;
    mkbar 3 101 103 100 102;
    mkbar 4 97 99 95 96 ].

Definition long_signal (stop take : option Q) : signal :=
  {| s_timestamp := 1; s_signal_type := "long"; s_value := 100;
     s_stop_loss := stop; s_take_profit := take |}.

(** A long signal at [price] with the levels derived from an ATR of 2. *)
Definition signal_at (price : Q) : signal :=
  {| s_timestamp := 1; s_signal_type := "long"; s_value := price;
     s_stop_loss := Some (price - 4); s_take_profit := Some (price + 6) |}.

(** A signal whose stop is the level derived from the ATR of its bar, and
    one whose stop lies far below it. *)
Definition near_signal : signal := long_signal (Some 96) (Some 106).

Definition far_signal : signal := long_signal (Some 50) (Some 175).

End Sample.

(* ------------------------------------------------------------------ *)
(** ** [performace_check.py]: the figures of [PerformanceAnalyzer]

    The analyzer works on the ['pnl'] column of the trades it is given; the
    ledger of [close_position] has no ['exit_time'] column, so the frame keeps
    the order of the ledger.  The Sharpe ratio (a standard deviation and a
    square root) and the formatting of the report are not modelled. *)

(** [Series.cumsum]. *)
Fixpoint cumsum_from (acc : Q) (l : list Q) : list Q :=
  match l with
  | [] => []
  | x :: rest => (acc + x) :: cumsum_from (acc + x) rest
  end.

Definition cumsum (l : list Q) : list Q :=
  match l with
  | [] => []
  | x :: rest => x :: cumsum_from x rest
  end.

(** [_calc_equity_curve]. *)
Definition equity_curve (trades_list : list trade) : list Q :=
  cumsum (map t_pnl trades_list).

(** [np.maximum.accumulate]. *)
Fixpoint maximum_accumulate_from (peak : Q) (l : list Q) : list Q :=
  match l with
  | [] => []
  | x :: rest => Qmax peak x :: maximum_accumulate_from (Qmax peak x) rest
  end.

Definition maximum_accumulate (l : list Q) : list Q :=
  match l with
  | [] => []
  | x :: rest => x :: maximum_accumulate_from x rest
  end.

(** [peak - equity], element by element. *)
Fixpoint subtract (peak equity : list Q) : list Q :=
  match peak, equity with
  | p :: ps, e :: es => (p - e) :: subtract ps es
  | _, _ => []
  end.

(** [drawdown.max() if len(drawdown) > 0 else np.nan]; [None] is NaN. *)
Definition array_max (l : list Q) : option Q :=
  match l with
  | [] => None
  | x :: rest => Some (fold_left Qmax rest x)
  end.

Definition max_drawdown (trades_list : list trade) : option Q :=
  let equity := equity_curve trades_list in
  let peak := maximum_accumulate equity in
  array_max (subtract peak equity).

(** [Series.sum]. *)
Definition series_sum (l : list Q) : Q := fold_left Qplus l 0.

Definition total_pnl (trades_list : list trade) : Q :=
  series_sum (map t_pnl trades_list).

Definition win_trades (trades_list : list trade) : list trade :=
  filter (fun t => Qlt_bool 0 (t_pnl t)) trades_list.

Definition loss_trades (trades_list : list trade) : list trade :=
  filter (fun t => Qlt_bool (t_pnl t) 0) trades_list.

(** [len(win_trades) / len(self.trades) if len(self.trades) > 0 else nan]. *)
Definition win_rate (trades_list : list trade) : option Q :=
  if (0 <? List.length trades_list)%nat
  then Some (inject_Z (Z.of_nat (List.length (win_trades trades_list)))
             / inject_Z (Z.of_nat (List.length trades_list)))
  else None.

(** [win pnl sum / abs(loss pnl sum) if len(loss_trades) > 0 else nan]. *)
Definition profit_factor (trades_list : list trade) : option Q :=
  if (0 <? List.length (loss_trades trades_list))%nat
  then Some (series_sum (map t_pnl (win_trades trades_list))
             / Qabs (series_sum (map t_pnl (loss_trades trades_list))))
  else None.

(** [Series.mean]. *)
Definition series_mean (l : list Q) : Q :=
  series_sum l / inject_Z (Z.of_nat (List.length l)).

Definition avg_win (trades_list : list trade) : Q :=
  if (0 <? List.length (win_trades trades_list))%nat
  then series_mean (map t_pnl (win_trades trades_list))
  else 0.

Definition avg_loss (trades_list : list trade) : Q :=
  if (0 <? List.length (loss_trades trades_list))%nat
  then series_mean (map t_pnl (loss_trades trades_list))
  else 0.

(* ------------------------------------------------------------------ *)
(** ** [strategy.py]: [SignalGenerator.generate_signals]

    The indicator frames come from TA-Lib and are inputs here.  The hourly
    indicators are defined from row 50 on (their periods are 14 and 20); the
    daily momentum is NaN ([None]) when the daily frame is short. *)

Record h1_row := {
  h_timestamp : Z;
  h_close : Q;
  h_donchian_high_20 : Q;
  h_donchian_low_20 : Q;
  h_atr_14 : Q
}.

Record d1_row := {
  d_momentum_14 : option Q
}.

(** The fields [IndicatorCalculator.__init__] copies from [Config]. *)
Record indicator := {
  i_stop_loss_atr : Q;
  i_take_profit_atr : Q
}.

(** [x > 0] and [x < 0] on a value that may be NaN. *)
Definition positive (x : option Q) : bool :=
  match x with Some v => Qlt_bool 0 v | None => false end.

Definition negative (x : option Q) : bool :=
  match x with Some v => Qlt_bool v 0 | None => false end.

(** The body of the loop of [generate_signals] for the row [h1]. *)
Definition signal_for (ic : indicator) (d1 : d1_row) (h1 : h1_row)
  : option signal :=
  let long_signal :=
    Qle_bool (h_donchian_high_20 h1 * (995 # 1000)) (h_close h1)
    && positive (d_momentum_14 d1) in
  let short_signal :=
    Qle_bool (h_close h1) (h_donchian_low_20 h1 * (1005 # 1000))
    && negative (d_momentum_14 d1) in
  if long_signal || short_signal then
    let signal_type := if long_signal then "long"%string else "short"%string in
    let stop_loss :=
      if long_signal then h_close h1 - i_stop_loss_atr ic * h_atr_14 h1
      else h_close h1 + i_stop_loss_atr ic * h_atr_14 h1 in
    let take_profit :=
      if long_signal then h_close h1 + i_take_profit_atr ic * h_atr_14 h1
      else h_close h1 - i_take_profit_atr ic * h_atr_14 h1 in
    Some {| s_timestamp := h_timestamp h1;
            s_signal_type := signal_type;
            s_value := h_close h1;
            s_stop_loss := Some stop_loss;
            s_take_profit := Some take_profit |}
  else None.

(** [for i in range(50, len(df_h1))], collecting [signals_to_insert]. *)
Fixpoint signal_loop (ic : indicator) (d1 : d1_row) (rows : list h1_row)
  : list signal :=
  match rows with
  | [] => []
  | h1 :: rest =>
      match signal_for ic d1 h1 with
      | Some sg => sg :: signal_loop ic d1 rest
      | None => signal_loop ic d1 rest
      end
  end.

(** [generate_signals] up to its [insert_many]: the documents it inserts.
    Nothing is generated when one of the frames is empty; [d1] is the last
    daily row for every hourly row. *)
Definition signals_to_insert (ic : indicator) (df_h1 : list h1_row)
           (df_d1 : list d1_row) : list signal :=
  match df_h1, rev df_d1 with
  | [], _ => []
  | _, [] => []
  | _, d1 :: _ => signal_loop ic d1 (skipn 50 df_h1)
  end.

(* ------------------------------------------------------------------ *)
(** ** Further predicates used in the statements *)

(** A store without documents. *)
Definition empty_store : store :=
  {| positions := []; trades := []; next_id := 0 |}.

(** No two open positions with the same symbol, side and entry price. *)
Fixpoint unique_open (ps : list position) : bool :=
  match ps with
  | [] => true
  | p :: rest =>
      (negb (is_open p)
       || negb (existsb (same_open (p_symbol p) (p_side p) (p_entry_price p))
                        rest))
      && unique_open rest
  end.

(** The store [s'] extends [s]: nothing is deleted, identifiers and trades
    are appended, closed documents stay as they are. *)
Definition extends (s s' : store) : Prop :=
  (exists more, map p_id (positions s') = (map p_id (positions s) ++ more)%list)
  /\ (exists more, trades s' = (trades s ++ more)%list)
  /\ (next_id s <= next_id s')%nat
  /\ frozen (positions s) (positions s').

(** What the replay of [symbol] over the frame [df] may write. *)
Definition replay_write (symbol : string) (df : list bar) (e : write * store)
  : Prop :=
  match fst e with
  | InsertPosition p =>
      p_symbol p = symbol
      /\ p_status p = Open
      /\ 0 < p_qty p
      /\ p_stop_loss p <> None
      /\ p_take_profit p <> None
      /\ exists b, In b df /\ p_open_time p = b_timestamp b
                   /\ b_atr_14 b = Some (p_atr p)
  | UpdateStatus _ => True
  | InsertTrade t =>
      (t_reason t = "stop_loss"%string \/ t_reason t = "take_profit"%string
       \/ t_reason t = "End of Backtest"%string)
      /\ exists b, In b df /\ t_close_time t = b_timestamp b
  end.

(** The invariant behind the absence of duplicates: a driver without faults
    and no duplicate among the open positions, now and after every write. *)
Definition unique_invariant (w : world) : Prop :=
  faults w = []
  /\ unique_open (positions (db w)) = true
  /\ Forall (fun e => unique_open (positions (snd e)) = true) (journal w).

(** Every entry of the journal is such a write. *)
Definition replay_journal (symbol : string) (df : list bar) (w : world)
  : Prop :=
  Forall (replay_write symbol df) (journal w).

(** Sample data for the further properties. *)
Module Cases.

(** Five open positions, the maximum of [Sample.pm]. *)
Definition full : store :=
  db (snd (bar_loop Sample.pm "BTC/USDT" Sample.df (firstn 1 Sample.df)
                    (map Sample.signal_at [100; 110; 120; 130; 140])
                    (reliable Sample.empty))).

(** An open position whose document has no stop-loss. *)
Definition no_stop : position :=
  {| p_id := 0; p_symbol := "ETH/USDT"; p_side := "long"; p_qty := 1;
     p_entry_price := 50; p_atr := 1; p_stop_loss := None;
     p_take_profit := Some 60; p_open_time := 1; p_status := Open |}.

(** A position whose side is written with a capital letter. *)
Definition capital_long : position :=
  {| p_id := 0; p_symbol := "BTC/USDT"; p_side := "Long"; p_qty := 25;
     p_entry_price := 100; p_atr := 2; p_stop_loss := Some 96;
     p_take_profit := Some 106; p_open_time := 1; p_status := Open |}.

Definition mktrade (pnl : Q) : trade :=
  {| t_symbol := "BTC/USDT"; t_side := "long"; t_qty := 1;
     t_entry_price := 100; t_exit_price := 100 + pnl; t_open_time := 1;
     t_close_time := 2; t_gross_pnl := pnl; t_fee := 0; t_pnl := pnl;
     t_reason := "take_profit" |}.

Definition ic : indicator :=
  {| i_stop_loss_atr := 2; i_take_profit_atr := 3 |}.

Definition mkh1 (t : Z) (c hi lo : Q) : h1_row :=
  {| h_timestamp := t; h_close := c; h_donchian_high_20 := hi;
     h_donchian_low_20 := lo; h_atr_14 := 2 |}.

(** Fifty rows of warm-up, then a breakout row and a quiet one. *)
Definition h1_frame : list h1_row :=
  (repeat (mkh1 0 100 100 90) 50
   ++ [mkh1 51 100 100 90; mkh1 52 95 100 90])%list.

Definition d1_frame : list d1_row :=
  [ {| d_momentum_14 := None |}; {| d_momentum_14 := Some 3 |} ].

End Cases.

(** ** Proof automation for the driver *)

Ltac run_driver :=
  unfold update_one_status, insert_trade, insert_position, find_one, find,
    commit, driver_call, try_except, bind, ret, raise in *.

Ltac on_fault w :=
  let f := fresh "f" in
  let fs := fresh "fs" in
  let E := fresh "Ef" in
  destruct (faults w) as [|f fs] eqn:E; [|destruct f]; simpl in *;
  rewrite ?E; simpl.

(* ================================================================== *)
(** * Properties *)

Open Scope string_scope.

(** ** Arithmetic helpers *)

Lemma Qlt_bool_iff (a b : Q) : Qlt_bool a b = true <-> a < b.
Proof.
  unfold Qlt_bool. rewrite negb_true_iff. split.
  - intros H. apply Qnot_le_lt. intros Hle.
    apply Qle_bool_iff in Hle. congruence.
  - intros H. destruct (Qle_bool b a) eqn:E; [|reflexivity].
    apply Qle_bool_iff in E. exfalso. exact (Qlt_not_le _ _ H E).
Qed.

Lemma Qle_bool_false (a b : Q) : Qle_bool a b = false <-> ~ a <= b.
Proof.
  rewrite <- Qle_bool_iff. destruct (Qle_bool a b); split; intros H;
    congruence || (exfalso; apply H; reflexivity) || reflexivity.
Qed.

Lemma round_half_even_zero (y : Q) : y == 0 -> round_half_even y = 0%Z.
Proof.
  intros H. unfold round_half_even.
  assert (F : Qfloor y = 0%Z) by (rewrite H; reflexivity).
  rewrite F.
  assert (C : Qcompare (y - inject_Z 0) (1 # 2) = Lt)
    by (rewrite H; reflexivity).
  rewrite C. reflexivity.
Qed.

Lemma round_ndigits_zero (x : Q) (n : Z) : x == 0 -> round_ndigits x n == 0.
Proof.
  intros H. unfold round_ndigits.
  rewrite round_half_even_zero.
  - unfold Qdiv. apply Qmult_0_l.
  - rewrite H. apply Qmult_0_l.
Qed.

(** ** The scenario of the specification, evaluated *)

Example round_half_to_even :
  round_ndigits (5 # 2) 0 == 2 /\ round_ndigits (7 # 2) 0 == 4
  /\ round_ndigits (12345 # 1000) 2 == 1234 # 100
  /\ round_ndigits (12345 # 10) (-2) == 1200.
Proof. repeat split. Qed.

Example lower_mixed_case : lower "LoNg" = "long".
Proof. reflexivity. Qed.

Example scenario_size :
  calculate_position_size Sample.pm "BTC/USDT" 100 2 10000 == 25.
Proof. reflexivity. Qed.

Example scenario_short_stop :
  check_exit_conditions Sample.pm Sample.short_position
                        [Sample.mkbar 2 (209 # 2) 105 101 102]
  = Exited (Qmax (209 # 2) 104 * (1 + (1 # 1000))) 2 "stop_loss".
Proof. reflexivity. Qed.

Example scenario_stop_loss_trade :
  exists t,
    trades (db (snd (backtest_symbol Sample.pm "BTC/USDT" Sample.df
                                     [Sample.near_signal]
                                     (reliable Sample.empty))))
    = [t]
    /\ t_exit_price t == 95904 # 1000
    /\ t_gross_pnl t == - (1024 # 10)
    /\ t_fee t == 195904 # 100000
    /\ t_pnl t == - (10435904 # 100000)
    /\ t_reason t = "stop_loss".
Proof. eexists. split; [vm_compute; reflexivity|]. repeat split. Qed.

Example scenario_limit_reached :
  let w := snd (bar_loop Sample.pm "BTC/USDT" Sample.df (firstn 1 Sample.df)
                         (map Sample.signal_at [100; 110; 120; 130; 140; 150])
                         (reliable Sample.empty)) in
  open_count (db w) = 5%nat
  /\ map p_entry_price (positions (db w)) = [100; 110; 120; 130; 140].
Proof. vm_compute. split; reflexivity. Qed.

(** ** Sizing *)

(** C4, as the code has it: the rounded quotient whenever the stop distance
    is positive; 0 when the stop distance is exactly zero; and, on a negative
    stop distance, the same rounded quotient again (not 0). *)
Theorem calculate_position_size_cases
        (pm : manager) (symbol : string) (entry_price atr cap : Q) :
  let q := calculate_position_size pm symbol entry_price atr cap in
  let quotient :=
    cap * risk_per_trade pm / (atr * stop_loss_atr pm * leverage pm) in
  (0 < atr * stop_loss_atr pm ->
   q == round_ndigits quotient (symbol_precision pm))
  /\ (atr * stop_loss_atr pm == 0 -> q = 0)
  /\ (atr * stop_loss_atr pm < 0 -> ~ leverage pm == 0 ->
      q = round_ndigits quotient (symbol_precision pm)).
Proof.
  cbv zeta. unfold calculate_position_size.
  destruct (Qeq_bool (atr * stop_loss_atr pm * leverage pm) 0) eqn:E.
  - apply Qeq_bool_iff in E. split; [|split].
    + intros _. symmetry. apply round_ndigits_zero.
      unfold Qdiv. rewrite E. apply Qmult_0_r.
    + reflexivity.
    + intros H A. exfalso. apply A.
      apply Qmult_integral in E. destruct E as [E|E]; [|exact E].
      rewrite E in H. discriminate.
  - apply Qeq_bool_neq in E. split; [|split].
    + reflexivity.
    + intros H. exfalso. apply E. rewrite H. apply Qmult_0_l.
    + reflexivity.
Qed.

Lemma calculate_position_size_cases_witness :
  calculate_position_size Sample.pm "BTC/USDT" 100 2 10000
  == round_ndigits (10000 * (1 # 100) / (2 * 2 * 1)) 3
  /\ calculate_position_size Sample.pm "BTC/USDT" 100 0 10000 = 0
  /\ calculate_position_size Sample.pm "BTC/USDT" 100 (-2) 10000
     = round_ndigits (10000 * (1 # 100) / (-2 * 2 * 1)) 3.
Proof.
  split; [|split].
  - apply (calculate_position_size_cases Sample.pm "BTC/USDT" 100 2 10000).
    reflexivity.
  - apply (calculate_position_size_cases Sample.pm "BTC/USDT" 100 0 10000).
    reflexivity.
  - apply (calculate_position_size_cases Sample.pm "BTC/USDT" 100 (-2) 10000).
    + reflexivity.
    + discriminate.
Defined.

(** C4 fails on a negative stop distance: with ATR -2 the size is -25. *)
Lemma calculate_position_size_negative_distance :
  (-2) * stop_loss_atr Sample.pm <= 0
  /\ calculate_position_size Sample.pm "BTC/USDT" 100 (-2) 10000 == -25
  /\ ~ calculate_position_size Sample.pm "BTC/USDT" 100 (-2) 10000 == 0.
Proof.
  split; [discriminate|]. split; [reflexivity|]. vm_compute. discriminate.
Qed.

(** ** Exit evaluation *)

Lemma scan_bars_skip (pm : manager) (pos : position) (stop take : Q)
      (pre rest : list bar) :
  p_stop_loss pos = Some stop ->
  p_take_profit pos = Some take ->
  (forall b, In b pre ->
             exit_on_bar pm (lower (p_side pos)) stop take b = NotExited) ->
  scan_bars pm pos (pre ++ rest)%list = scan_bars pm pos rest.
Proof.
  intros Hs Ht. induction pre as [|a pre IH]; intros Hpre; [reflexivity|].
  simpl. rewrite Hs, Ht, (Hpre a (or_introl eq_refl)).
  apply IH. intros b Hb. apply Hpre. right. exact Hb.
Qed.

Lemma scan_bars_absent (pm : manager) (pos : position) (rows : list bar) :
  p_stop_loss pos = None \/ p_take_profit pos = None ->
  scan_bars pm pos rows = NotExited.
Proof.
  intros H. induction rows as [|b rows IH]; [reflexivity|].
  simpl. destruct H as [H|H]; rewrite H.
  - exact IH.
  - destruct (p_stop_loss pos); exact IH.
Qed.

(** C5: on the first bar of the scan that is reached, the exit prices of the
    table, with the stop-loss tested first. *)
Theorem exit_price_table
        (pm : manager) (pos : position) (stop take : Q)
        (df pre post : list bar) (b : bar) :
  p_stop_loss pos = Some stop ->
  p_take_profit pos = Some take ->
  since (p_open_time pos) df = (pre ++ b :: post)%list ->
  (forall b', In b' pre ->
              exit_on_bar pm (lower (p_side pos)) stop take b' = NotExited) ->
  let r := check_exit_conditions pm pos df in
  let t := b_timestamp b in
  (lower (p_side pos) = "long" ->
   (b_low b <= stop ->
    r = Exited (stop * (1 - slippage pm)) t "stop_loss")
   /\ (~ b_low b <= stop -> b_high b >= take ->
       r = Exited (take * (1 - slippage pm)) t "take_profit"))
  /\ (lower (p_side pos) = "short" ->
      (b_high b >= stop ->
       r = Exited (Qmax (b_open b) stop * (1 + slippage pm)) t "stop_loss")
      /\ (~ b_high b >= stop -> b_low b <= take ->
          r = Exited (Qmin (b_open b) take * (1 + slippage pm)) t
                     "take_profit")).
Proof.
  intros Hs Ht Hdf Hpre. cbv zeta. unfold check_exit_conditions.
  rewrite Hdf, (scan_bars_skip pm pos stop take pre (b :: post) Hs Ht Hpre).
  simpl. rewrite Hs, Ht. unfold exit_on_bar.
  split; intros Hside; rewrite Hside; simpl; split.
  - intros H. apply Qle_bool_iff in H. rewrite H. reflexivity.
  - intros H1 H2. apply Qle_bool_false in H1. apply Qle_bool_iff in H2.
    rewrite H1, H2. reflexivity.
  - intros H. apply Qle_bool_iff in H. rewrite H. reflexivity.
  - intros H1 H2. apply Qle_bool_false in H1. apply Qle_bool_iff in H2.
    rewrite H1, H2. reflexivity.
Qed.

Lemma exit_price_table_witness :
  check_exit_conditions Sample.pm (Sample.long_position Open) Sample.df
  = Exited (96 * (1 - (1 # 1000))) 4 "stop_loss".
Proof.
  refine (proj1 (proj1 (exit_price_table
            Sample.pm (Sample.long_position Open) 96 106 Sample.df
            [Sample.mkbar 1 100 101 99 100; Sample.mkbar 2 100 102 98 101;
             Sample.mkbar 3 101 103 100 102]
            [] (Sample.mkbar 4 97 99 95 96)
            eq_refl eq_refl eq_refl _) eq_refl) _).
  - intros b' [<-|[<-|[<-|[]]]]; reflexivity.
  - discriminate.
Defined.

(** ** Running the driver *)

Lemma open_position_cases
      (symbol side : string) (entry_price : Q) (entry_time : Z) (qty atr : Q)
      (stop_loss take_profit : option Q) (w : world) :
  let doc := position_doc symbol side entry_price entry_time qty atr
                          stop_loss take_profit in
  let p := with_id (next_id (db w)) doc in
  let s' := {| positions := positions (db w) ++ [p];
               trades := trades (db w);
               next_id := S (next_id (db w)) |} in
  (hd false (faults w) = true
   /\ open_position symbol side entry_price entry_time qty atr
                    stop_loss take_profit w
      = (Returned None,
         {| db := db w; faults := tl (faults w); journal := journal w |}))
  \/ (hd false (faults w) = false
      /\ open_position symbol side entry_price entry_time qty atr
                       stop_loss take_profit w
         = (Returned (Some p),
            {| db := s'; faults := tl (faults w);
               journal := journal w ++ [(InsertPosition p, s')] |})).
Proof.
  cbv zeta. unfold open_position. run_driver.
  on_fault w.
  - right. split; reflexivity.
  - left. split; reflexivity.
  - right. split; reflexivity.
Qed.

Lemma close_position_cases (pm : manager) (position_id : nat) (exit_price : Q)
      (exit_time : Z) (reason : string) (w : world) :
  close_case pm position_id exit_price exit_time reason w
             (fst (close_position pm position_id exit_price exit_time reason w))
             (snd (close_position pm position_id exit_price exit_time reason w)).
Proof.
  unfold close_position. run_driver.
  destruct (faults w) as [|f0 fs] eqn:Ef; [|destruct f0]; simpl;
    try (eapply CloseLookupFault; simpl; rewrite ?Ef; reflexivity);
    (destruct (List.find _ (positions (db w))) as [p|] eqn:Efind; simpl;
     [|eapply CloseNotFound; simpl; rewrite ?Ef; auto]);
    (destruct (Qeq_bool (leverage pm) 0) eqn:El; simpl;
     [apply Qeq_bool_iff in El;
      eapply CloseZeroLeverage; simpl; rewrite ?Ef; eauto
     |apply Qeq_bool_neq in El]).
  - rewrite Ef. simpl. rewrite Ef. simpl.
    eapply CloseDone; simpl; rewrite ?Ef; simpl; eauto.
    rewrite <- app_assoc. reflexivity.
  - destruct fs as [|f1 fs1]; [|destruct f1]; simpl.
    + eapply CloseDone; simpl; rewrite ?Ef; simpl; eauto.
      rewrite <- app_assoc. reflexivity.
    + eapply CloseUpdateFault; simpl; rewrite ?Ef; simpl; eauto.
    + destruct fs1 as [|f2 fs2]; [|destruct f2]; simpl.
      * eapply CloseDone; simpl; rewrite ?Ef; simpl; eauto.
        rewrite <- app_assoc. reflexivity.
      * eapply CloseInsertFault; simpl; rewrite ?Ef; simpl; eauto.
      * eapply CloseDone; simpl; rewrite ?Ef; simpl; eauto.
        rewrite <- app_assoc. reflexivity.
Qed.

Lemma get_open_positions_cases (w : world) :
  exists w',
    get_open_positions w
    = (Returned (if hd false (faults w) then []
                 else open_positions_of (db w)), w')
    /\ only_reads w w'.
Proof.
  unfold get_open_positions, open_positions_of, only_reads. run_driver.
  on_fault w; eexists; split; try reflexivity; simpl; rewrite ?Ef; auto.
Qed.

Lemma has_open_position_cases (symbol side : string) (entry_price : Q)
      (w : world) :
  exists w',
    has_open_position symbol side entry_price w
    = (Returned
         (if hd false (faults w) then false
          else match List.find (same_open symbol side entry_price)
                               (positions (db w)) with
               | Some _ => true
               | None => false
               end), w')
    /\ only_reads w w'.
Proof.
  unfold has_open_position, only_reads. run_driver.
  on_fault w; eexists; split; try reflexivity; simpl; rewrite ?Ef; auto.
Qed.

Lemma check_position_limit_cases (pm : manager) (symbol side : string)
      (entry_price atr : Q) (w : world) :
  let seen := if hd false (faults w) then []
              else open_positions_of (db w) in
  exists res w',
    check_position_limit pm symbol side entry_price atr w = (Returned res, w')
    /\ (forall q, res = Some q ->
                  limit_passed pm symbol side entry_price atr seen q)
    /\ only_reads w w'.
Proof.
  cbv zeta. unfold check_position_limit, try_except, bind.
  destruct (get_open_positions_cases w) as (w0 & -> & Hw0).
  set (seen := if hd false (faults w) then [] else open_positions_of (db w)).
  set (q := calculate_position_size pm symbol entry_price atr (capital pm)).
  destruct (Qle_bool q 0) eqn:Eq0.
  { exists None, w0. repeat split; try apply Hw0; discriminate. }
  destruct (max_positions pm <=? Z.of_nat (List.length seen))%Z eqn:Emax.
  { exists None, w0. repeat split; try apply Hw0; discriminate. }
  destruct (add_risks 0 seen) as [total|] eqn:Erisk.
  2:{ exists None, w0. repeat split; try apply Hw0; discriminate. }
  destruct (Qlt_bool (max_risk pm * capital pm)
              (total + Qabs (entry_price
                             - stop_loss_price pm side entry_price atr) * q))
    eqn:Elim.
  { exists None, w0. repeat split; try apply Hw0; discriminate. }
  exists (Some q), w0. split; [reflexivity|]. split; [|exact Hw0].
  intros q' Hq'. injection Hq' as <-. unfold limit_passed.
  split; [reflexivity|]. split.
  - apply Qnot_le_lt. apply Qle_bool_false. exact Eq0.
  - split.
    + apply Z.leb_gt in Emax. exact Emax.
    + exists total. split; [exact Erisk|].
      apply Qnot_lt_le. intros Hlt. apply Qlt_bool_iff in Hlt. congruence.
Qed.

(** ** Missing levels *)

(** C8, as the code has it: a position document without a stop-loss or
    without a take-profit never exits, whatever the bars; and
    [open_position] never creates such a document, it stores the level 0
    for a level the signal does not carry. *)
Theorem absent_level_never_exits :
  (forall (pm : manager) (pos : position),
      p_stop_loss pos = None \/ p_take_profit pos = None ->
      forall df, check_exit_conditions pm pos df = NotExited)
  /\ (forall symbol side entry_price entry_time qty atr stop_loss take_profit
             w p,
         fst (open_position symbol side entry_price entry_time qty atr
                            stop_loss take_profit w) = Returned (Some p) ->
         p_stop_loss p
         = Some (match stop_loss with Some x => x | None => 0 end)
         /\ p_take_profit p
            = Some (match take_profit with Some x => x | None => 0 end)
         /\ In p (positions
                    (db (snd (open_position symbol side entry_price entry_time
                                            qty atr stop_loss take_profit
                                            w))))).
Proof.
  split.
  - intros pm pos H df. unfold check_exit_conditions.
    apply scan_bars_absent. exact H.
  - intros symbol side entry_price entry_time qty atr stop_loss take_profit
           w p H.
    destruct (open_position_cases symbol side entry_price entry_time qty atr
                                  stop_loss take_profit w) as [[_ E]|[_ E]];
      rewrite E in *; simpl in *; [discriminate|].
    injection H as <-. simpl. repeat split.
    apply in_or_app. right. left. reflexivity.
Qed.

Lemma absent_level_never_exits_witness :
  check_exit_conditions
    Sample.pm
    {| p_id := 0; p_symbol := "BTC/USDT"; p_side := "long"; p_qty := 25;
       p_entry_price := 100; p_atr := 2; p_stop_loss := None;
       p_take_profit := Some 106; p_open_time := 1; p_status := Open |}
    Sample.df = NotExited
  /\ p_stop_loss
       (with_id 0 (position_doc "BTC/USDT" "long" 100 1 25 2 None None))
     = Some 0.
Proof.
  split.
  - apply (proj1 absent_level_never_exits). left. reflexivity.
  - apply (proj2 absent_level_never_exits
                 "BTC/USDT" "long" 100 1%Z 25 2 None None
                 (reliable Sample.empty)).
    reflexivity.
Defined.

(** C8 fails for a position opened from a signal without levels: the stored
    levels are 0, and a long position leaves on the first bar, at price 0,
    as a take-profit. *)
Lemma opened_without_levels_exits :
  exists p,
    fst (open_position "BTC/USDT" "long" 100 1 25 2 None None
                       (reliable Sample.empty)) = Returned (Some p)
    /\ check_exit_conditions Sample.pm p Sample.df
       = Exited (0 * (1 - (1 # 1000))) 1 "take_profit"
    /\ check_exit_conditions Sample.pm p Sample.df <> NotExited.
Proof.
  eexists. split; [reflexivity|]. split; [reflexivity|]. discriminate.
Qed.

(** ** Closing *)

(** C6: the profit and loss recorded by a successful [close_position]. *)
Theorem close_position_pnl
        (pm : manager) (position_id : nat) (exit_price : Q) (exit_time : Z)
        (reason : string) (w : world) (tr : trade) :
  fst (close_position pm position_id exit_price exit_time reason w)
  = Returned (Some tr) ->
  let w' := snd (close_position pm position_id exit_price exit_time reason w)
  in
  exists p,
    List.find (fun p => Nat.eqb (p_id p) position_id) (positions (db w))
    = Some p
    /\ trades (db w') = (trades (db w) ++ [tr])%list
    /\ t_entry_price tr = p_entry_price p
    /\ t_exit_price tr = exit_price
    /\ t_qty tr = p_qty p
    /\ (p_side p = "long" ->
        t_gross_pnl tr = (exit_price - p_entry_price p) * p_qty p)
    /\ (p_side p = "short" ->
        t_gross_pnl tr = (p_entry_price p - exit_price) * p_qty p)
    /\ t_fee tr
       = (Qabs (p_entry_price p) + Qabs exit_price) * p_qty p * fee_rate pm
         / leverage pm
    /\ t_pnl tr = t_gross_pnl tr - t_fee tr
    /\ ~ leverage pm == 0.
Proof.
  intros H. cbv zeta.
  pose proof (close_position_cases pm position_id exit_price exit_time
                                   reason w) as C.
  rewrite H in C. inversion C as [| | | | |p w' s1 H1 H2 H3 H4 H5 H6 H7 H8 H9].
  subst. exists p. rewrite H7. simpl.
  repeat split; auto.
  - intros Hs. unfold gross_pnl_of. rewrite Hs. reflexivity.
  - intros Hs. unfold gross_pnl_of. rewrite Hs. reflexivity.
Qed.

Lemma close_position_pnl_witness :
  exists p,
    List.find (fun p => Nat.eqb (p_id p) 0) (positions (Sample.one Open))
    = Some p
    /\ t_gross_pnl
         (trade_doc Sample.pm (Sample.long_position Open)
                    (96 * (1 - (1 # 1000))) 4 "stop_loss")
       = (96 * (1 - (1 # 1000)) - p_entry_price p) * p_qty p.
Proof.
  destruct (close_position_pnl
              Sample.pm 0 (96 * (1 - (1 # 1000))) 4 "stop_loss"
              (reliable (Sample.one Open))
              (trade_doc Sample.pm (Sample.long_position Open)
                         (96 * (1 - (1 # 1000))) 4 "stop_loss")
              eq_refl)
    as (p & Hfind & _ & _ & _ & _ & Hlong & _).
  exists p. split; [exact Hfind|].
  apply Hlong. simpl in Hfind. injection Hfind as <-. reflexivity.
Defined.

Lemma frozen_refl (ps : list position) : frozen ps ps.
Proof. intros i p H _. exact H. Qed.

Lemma frozen_trans (a b c : list position) :
  frozen a b -> frozen b c -> frozen a c.
Proof. intros H1 H2 i p Hi Hc. apply H2; [apply H1|]; assumption. Qed.

Lemma with_status_same (p : position) :
  with_status (p_status p) p = p.
Proof. destruct p. reflexivity. Qed.

Lemma frozen_set_status (id : nat) (ps : list position) :
  frozen ps (set_status id Closed ps).
Proof.
  induction ps as [|a ps IH]; intros i p Hi Hc; [exact Hi|].
  simpl. destruct (Nat.eqb (p_id a) id) eqn:E.
  - destruct i as [|i]; simpl in *; [|exact Hi].
    injection Hi as ->. rewrite <- Hc. rewrite with_status_same. reflexivity.
  - destruct i as [|i]; simpl in *; [exact Hi|].
    apply IH; assumption.
Qed.

Lemma frozen_app (ps extra : list position) : frozen ps (ps ++ extra)%list.
Proof.
  intros i p Hi _. rewrite nth_error_app1; [exact Hi|].
  apply nth_error_Some. congruence.
Qed.

Lemma set_status_closed_found (id : nat) (ps : list position) (p : position) :
  List.find (fun p => Nat.eqb (p_id p) id) ps = Some p ->
  p_status p = Closed ->
  set_status id Closed ps = ps.
Proof.
  induction ps as [|a ps IH]; intros Hf Hc; [reflexivity|].
  simpl in *. destruct (Nat.eqb (p_id a) id).
  - injection Hf as ->. rewrite <- Hc, with_status_same. reflexivity.
  - rewrite IH; auto.
Qed.

Lemma close_position_returns (pm : manager) (position_id : nat)
      (exit_price : Q) (exit_time : Z) (reason : string) (w : world) :
  exists res,
    fst (close_position pm position_id exit_price exit_time reason w)
    = Returned res.
Proof.
  pose proof (close_position_cases pm position_id exit_price exit_time
                                   reason w) as C.
  inversion C; eexists; reflexivity.
Qed.

Lemma close_position_frozen (pm : manager) (position_id : nat)
      (exit_price : Q) (exit_time : Z) (reason : string) (w : world) :
  frozen (positions (db w))
         (positions
            (db (snd (close_position pm position_id exit_price exit_time
                                     reason w)))).
Proof.
  pose proof (close_position_cases pm position_id exit_price exit_time
                                   reason w) as C.
  inversion C as [w' ? Hdb|w' ? ? Hdb|p w' ? ? ? Hdb|p w' ? ? ? ? Hdb
                  |p w' ? ? ? ? ? Hdb|p w' s1 ? ? ? ? ? ? Hdb];
    rewrite Hdb; subst; simpl;
    first [apply frozen_refl | apply frozen_set_status].
Qed.

Lemma open_position_frozen
      (symbol side : string) (entry_price : Q) (entry_time : Z) (qty atr : Q)
      (stop_loss take_profit : option Q) (w : world) :
  frozen (positions (db w))
         (positions
            (db (snd (open_position symbol side entry_price entry_time qty atr
                                    stop_loss take_profit w)))).
Proof.
  destruct (open_position_cases symbol side entry_price entry_time qty atr
                                stop_loss take_profit w) as [[_ E]|[_ E]];
    rewrite E; simpl; [apply frozen_refl | apply frozen_app].
Qed.

Lemma perform_frozen (pm : manager) (c : call) (w : world) :
  frozen (positions (db w)) (positions (db (snd (perform pm c w)))).
Proof.
  destruct c as [symbol side entry_price entry_time qty atr sl tp
                |position_id exit_price exit_time reason];
    unfold perform, bind, ret.
  - pose proof (open_position_frozen symbol side entry_price entry_time qty
                                     atr sl tp w) as F.
    destruct (open_position _ _ _ _ _ _ _ _ w) as [[r|] w']; exact F.
  - pose proof (close_position_frozen pm position_id exit_price exit_time
                                      reason w) as F.
    destruct (close_position _ _ _ _ _ w) as [[r|] w']; exact F.
Qed.

Lemma for_each_perform_frozen (pm : manager) (calls : list call) (w : world) :
  frozen (positions (db w))
         (positions (db (snd (for_each (perform pm) calls w)))).
Proof.
  revert w. induction calls as [|c calls IH]; intros w.
  - apply frozen_refl.
  - simpl. unfold bind.
    pose proof (perform_frozen pm c w) as F.
    destruct (perform pm c w) as [[[]|] w']; simpl in *.
    + eapply frozen_trans; [exact F|apply IH].
    + exact F.
Qed.

(** C7, as the code has it: over every sequence of calls a closed position
    stays what it is, so a position goes from open to closed at most once;
    closing an identifier that does not exist returns nothing and leaves the
    store alone; closing a position that is closed already leaves every
    position as it is; and when none of the three driver calls raises and the
    leverage is not zero, that call returns the trade it computes and appends
    it to the ledger. *)
Theorem closed_is_terminal (pm : manager) :
  (forall calls w, frozen (positions (db w))
                          (positions (db (snd (for_each (perform pm) calls
                                                        w)))))
  /\ (forall position_id exit_price exit_time reason w,
         List.find (fun p => Nat.eqb (p_id p) position_id) (positions (db w))
         = None ->
         fst (close_position pm position_id exit_price exit_time reason w)
         = Returned None
         /\ db (snd (close_position pm position_id exit_price exit_time
                                    reason w)) = db w)
  /\ (forall position_id exit_price exit_time reason w p,
         List.find (fun p => Nat.eqb (p_id p) position_id) (positions (db w))
         = Some p ->
         p_status p = Closed ->
         positions (db (snd (close_position pm position_id exit_price
                                            exit_time reason w)))
         = positions (db w))
  /\ (forall position_id exit_price exit_time reason w p,
         hd false (faults w) = false ->
         hd false (tl (faults w)) = false ->
         hd false (tl (tl (faults w))) = false ->
         ~ leverage pm == 0 ->
         List.find (fun p => Nat.eqb (p_id p) position_id) (positions (db w))
         = Some p ->
         p_status p = Closed ->
         fst (close_position pm position_id exit_price exit_time reason w)
         = Returned (Some (trade_doc pm p exit_price exit_time reason))
         /\ trades (db (snd (close_position pm position_id exit_price
                                            exit_time reason w)))
            = (trades (db w)
               ++ [trade_doc pm p exit_price exit_time reason])%list).
Proof.
  split; [|split; [|split]].
  - apply for_each_perform_frozen.
  - intros position_id exit_price exit_time reason w Hnone.
    pose proof (close_position_cases pm position_id exit_price exit_time
                                     reason w) as C.
    inversion C; subst; try congruence; split; congruence.
  - intros position_id exit_price exit_time reason w p Hfind Hc.
    pose proof (close_position_cases pm position_id exit_price exit_time
                                     reason w) as C.
    inversion C as [w' ? Hdb|w' ? ? Hdb|p' w' ? ? ? Hdb|p' w' ? ? ? ? Hdb
                    |p' w' ? ? ? ? ? Hdb|p' w' s1 ? ? ? ? ? ? Hdb];
      rewrite Hdb; subst; simpl; try reflexivity;
      apply (set_status_closed_found position_id _ p Hfind Hc).
  - intros position_id exit_price exit_time reason w p H0 H1 H2 Hlev Hfind _.
    pose proof (close_position_cases pm position_id exit_price exit_time
                                     reason w) as C.
    inversion C as [|w' ? Hnone|p' w' ? ? Hzero|p' w' ? ? ? Hup
                    |p' w' ? ? ? ? Hins|p' w' s1 ? Hfound ? ? ? ? Hdb];
      try congruence; try contradiction.
    assert (p' = p) by congruence. subst p'.
    split; [reflexivity|]. rewrite Hdb. reflexivity.
Qed.

Lemma closed_is_terminal_witness :
  nth_error
    (positions
       (db (snd (for_each (perform Sample.pm)
                          [CallClose 0 103 4 "take_profit";
                           CallOpen "BTC/USDT" "long" 100 5 25 2
                                    (Some 96) (Some 106)]
                          (reliable (Sample.one Closed)))))) 0
  = Some (Sample.long_position Closed)
  /\ db (snd (close_position Sample.pm 7 103 4 "take_profit"
                             (reliable (Sample.one Open))))
     = Sample.one Open
  /\ positions (db (snd (close_position Sample.pm 0 103 4 "take_profit"
                                        (reliable (Sample.one Closed)))))
     = positions (Sample.one Closed)
  /\ trades (db (snd (close_position Sample.pm 0 103 4 "take_profit"
                                     (reliable (Sample.one Closed)))))
     = (trades (db (reliable (Sample.one Closed)))
        ++ [trade_doc Sample.pm (Sample.long_position Closed)
                      103 4 "take_profit"])%list.
Proof.
  split; [|split; [|split]].
  - apply (proj1 (closed_is_terminal Sample.pm)); reflexivity.
  - apply (proj1 (proj2 (closed_is_terminal Sample.pm))). reflexivity.
  - apply (proj1 (proj2 (proj2 (closed_is_terminal Sample.pm)))
                 0%nat 103 4%Z "take_profit" (reliable (Sample.one Closed))
                 (Sample.long_position Closed)); reflexivity.
  - apply (proj2 (proj2 (proj2 (closed_is_terminal Sample.pm)))
                 0%nat 103 4%Z "take_profit" (reliable (Sample.one Closed))
                 (Sample.long_position Closed));
      try reflexivity.
    intros H. discriminate H.
Defined.

(** C7 fails for a position that is closed already: [close_position] succeeds
    again and a second trade enters the ledger. *)
Lemma close_position_closed_again :
  let w := reliable (Sample.one Closed) in
  let r := close_position Sample.pm 0 103 4 "take_profit" w in
  p_status (Sample.long_position Closed) = Closed
  /\ trades (db w) = []
  /\ fst r = Returned (Some (trade_doc Sample.pm (Sample.long_position Closed)
                                       103 4 "take_profit"))
  /\ trades (db (snd r))
     = [trade_doc Sample.pm (Sample.long_position Closed) 103 4 "take_profit"]
  /\ db (snd r) <> db w.
Proof.
  cbv zeta. repeat split. discriminate.
Qed.

(** ** The duplicate guard under a fault *)

Lemma limit_passed_truthy (pm : manager) (symbol side : string)
      (entry_price atr : Q) (seen : list position) (q : Q) :
  limit_passed pm symbol side entry_price atr seen q ->
  negb (Qeq_bool q 0) && Qlt_bool 0 q = true.
Proof.
  intros (_ & Hq & _). apply andb_true_iff. split.
  - apply negb_true_iff. destruct (Qeq_bool q 0) eqn:E; [|reflexivity].
    apply Qeq_bool_iff in E. rewrite E in Hq. discriminate.
  - apply Qlt_bool_iff. exact Hq.
Qed.

(** C10: a query that raises makes [has_open_position] answer [False]; and
    when that happens after a passed limit check, with a matching open
    position in the store and a store that accepts the insert, the loop opens
    a second position with the same symbol, side and entry price. *)
Theorem has_open_position_swallows_fault :
  (forall symbol side entry_price w,
      hd false (faults w) = true ->
      fst (has_open_position symbol side entry_price w) = Returned false
      /\ db (snd (has_open_position symbol side entry_price w)) = db w)
  /\ (forall pm symbol b sg atr q w w1 p0,
         b_atr_14 b = Some atr ->
         check_position_limit pm symbol (s_signal_type sg) (s_value sg) atr w
         = (Returned (Some q), w1) ->
         hd false (faults w1) = true ->
         hd false (tl (faults w1)) = false ->
         List.find (same_open symbol (s_signal_type sg) (s_value sg))
                   (positions (db w)) = Some p0 ->
         let p1 :=
           with_id (next_id (db w))
                   (position_doc symbol (s_signal_type sg) (s_value sg)
                                 (b_timestamp b) q atr
                                 (s_stop_loss sg) (s_take_profit sg)) in
         fst (admit_signal pm symbol b sg w) = Returned tt
         /\ positions (db (snd (admit_signal pm symbol b sg w)))
            = (positions (db w) ++ [p1])%list
         /\ In p0 (positions (db w))
         /\ same_open symbol (s_signal_type sg) (s_value sg) p0 = true
         /\ same_open symbol (s_signal_type sg) (s_value sg) p1 = true).
Proof.
  split.
  - intros symbol side entry_price w Hf.
    destruct (has_open_position_cases symbol side entry_price w)
      as (w' & E & Hdb & _).
    rewrite E, Hf. simpl. split; [reflexivity|exact Hdb].
  - intros pm symbol b sg atr q w w1 p0 Hatr Hcheck Hf1 Hf2 Hfind. cbv zeta.
    destruct (check_position_limit_cases
                pm symbol (s_signal_type sg) (s_value sg) atr w)
      as (res & w1' & E & Hpass & Hdb1 & Hj1 & Hfs1).
    rewrite Hcheck in E. injection E as <- <-.
    specialize (Hpass q eq_refl).
    pose proof (limit_passed_truthy _ _ _ _ _ _ _ Hpass) as Htruthy.
    destruct (has_open_position_cases symbol (s_signal_type sg) (s_value sg)
                                      w1) as (w2 & E2 & Hdb2 & Hj2 & Hfs2).
    rewrite Hf1 in E2.
    destruct (open_position_cases
                symbol (s_signal_type sg) (s_value sg) (b_timestamp b) q atr
                (s_stop_loss sg) (s_take_profit sg) w2) as [[Hh _]|[_ E3]].
    { rewrite Hfs2 in Hh. congruence. }
    assert (EA : admit_signal pm symbol b sg w
                 = (Returned tt,
                    snd (open_position
                           symbol (s_signal_type sg) (s_value sg)
                           (b_timestamp b) q atr
                           (s_stop_loss sg) (s_take_profit sg) w2))).
    { unfold admit_signal. rewrite Hatr. unfold bind.
      rewrite Hcheck, Htruthy, E2, E3. reflexivity. }
    rewrite EA, E3. simpl. rewrite Hdb2, Hdb1.
    split; [reflexivity|]. split; [reflexivity|].
    apply find_some in Hfind. destruct Hfind as [Hin Hsame].
    split; [exact Hin|]. split; [exact Hsame|].
    unfold same_open, is_open. simpl.
    rewrite !String.eqb_refl, Qeq_bool_refl. reflexivity.
Qed.

Lemma has_open_position_swallows_fault_witness :
  let w := {| db := Sample.one Open; faults := [false; true]; journal := [] |}
  in
  let b := Sample.mkbar 1 100 101 99 100 in
  let sg := {| s_timestamp := 1; s_signal_type := "long"; s_value := 100;
               s_stop_loss := Some 96; s_take_profit := Some 106 |} in
  fst (has_open_position "BTC/USDT" "long" 100
         {| db := Sample.one Open; faults := [true]; journal := [] |})
  = Returned false
  /\ positions (db (snd (admit_signal Sample.pm "BTC/USDT" b sg w)))
     = [Sample.long_position Open;
        with_id 1 (position_doc "BTC/USDT" "long" 100 1
                                (calculate_position_size Sample.pm "BTC/USDT"
                                                         100 2 10000)
                                2 (Some 96) (Some 106))].
Proof.
  cbv zeta. split.
  - apply (proj1 has_open_position_swallows_fault). reflexivity.
  - apply (proj2 has_open_position_swallows_fault
                 Sample.pm "BTC/USDT" (Sample.mkbar 1 100 101 99 100)
                 {| s_timestamp := 1; s_signal_type := "long"; s_value := 100;
                    s_stop_loss := Some 96; s_take_profit := Some 106 |}
                 2 (calculate_position_size Sample.pm "BTC/USDT" 100 2 10000)
                 {| db := Sample.one Open; faults := [false; true];
                    journal := [] |}
                 {| db := Sample.one Open; faults := [true]; journal := [] |}
                 (Sample.long_position Open));
      reflexivity.
Defined.

(** ** Invariants of the simulation loop *)

Section Preservation.
Variable J : world -> Prop.

Lemma preserves_ret {A} (a : A) : preserves J (ret a).
Proof. intros w H. exact H. Qed.

Lemma preserves_raise {A} : preserves J (@raise A).
Proof. intros w H. exact H. Qed.

Lemma preserves_bind {A B} (m : M A) (k : A -> M B) :
  preserves J m -> (forall a, preserves J (k a)) -> preserves J (bind m k).
Proof.
  intros Hm Hk w Hw. unfold bind. specialize (Hm w Hw).
  destruct (m w) as [[a|] w']; simpl in *.
  - apply Hk. exact Hm.
  - exact Hm.
Qed.

Lemma preserves_for_each {A} (body : A -> M unit) (l : list A) :
  (forall a, preserves J (body a)) -> preserves J (for_each body l).
Proof.
  intros Hb. induction l as [|a l IH]; simpl.
  - apply preserves_ret.
  - apply preserves_bind; [apply Hb|intros _; exact IH].
Qed.

Variable pm : manager.
Variable symbol : string.

Hypothesis keeps_get : preserves J get_open_positions.
Hypothesis keeps_close :
  forall position_id exit_price exit_time reason,
    preserves J (close_position pm position_id exit_price exit_time reason).
Hypothesis keeps_admit :
  forall b sg, preserves J (admit_signal pm symbol b sg).

Lemma exit_phase_preserves (df : list bar) : preserves J (exit_phase pm df).
Proof.
  unfold exit_phase. apply preserves_bind; [exact keeps_get|].
  intros ops. apply preserves_for_each. intros pos. unfold exit_position.
  destruct (check_exit_conditions pm pos (data_since_entry df pos)).
  - apply preserves_ret.
  - apply preserves_bind; [apply keeps_close|intros; apply preserves_ret].
Qed.

Lemma entry_phase_preserves (b : bar) (sigs : list signal) :
  preserves J (entry_phase pm symbol b sigs).
Proof.
  induction sigs as [|sg sigs IH]; simpl.
  - apply preserves_ret.
  - destruct (s_timestamp sg <=? b_timestamp b)%Z.
    + apply preserves_bind; [apply keeps_admit|intros _; exact IH].
    + apply preserves_ret.
Qed.

Lemma bar_loop_preserves (df rows : list bar) (sigs : list signal) :
  preserves J (bar_loop pm symbol df rows sigs).
Proof.
  revert sigs. induction rows as [|b rows IH]; intros sigs; simpl.
  - apply preserves_ret.
  - apply preserves_bind; [apply exit_phase_preserves|]. intros _.
    apply preserves_bind; [apply entry_phase_preserves|]. intros left.
    apply IH.
Qed.

Lemma force_close_preserves (df : list bar) : preserves J (force_close pm df).
Proof.
  unfold force_close. apply preserves_bind; [exact keeps_get|].
  intros ops. destruct (0 <? List.length ops)%nat; [|apply preserves_ret].
  destruct (iloc_last df) as [last_bar|]; [|apply preserves_raise].
  apply preserves_for_each. intros pos. unfold force_close_position.
  apply preserves_bind; [apply keeps_close|].
  intros [t|]; [apply preserves_ret|apply preserves_raise].
Qed.

Lemma backtest_symbol_preserves (df : list bar) (signals_data : list signal) :
  preserves J (backtest_symbol pm symbol df signals_data).
Proof.
  unfold backtest_symbol.
  destruct (dropna df) as [|b0 rows]; [apply preserves_ret|].
  destruct signals_data as [|sg sigs]; [apply preserves_ret|].
  apply preserves_bind; [apply bar_loop_preserves|].
  intros _. apply force_close_preserves.
Qed.

End Preservation.

(** *** With a driver that never raises *)

Lemma world_ext (w w' : world) :
  db w' = db w -> journal w' = journal w -> faults w' = faults w -> w' = w.
Proof. destruct w, w'. simpl. intros -> -> ->. reflexivity. Qed.

Lemma only_reads_reliable (w w' : world) :
  faults w = [] -> only_reads w w' -> w' = w.
Proof.
  intros Hf (Hdb & Hj & Hfs). apply world_ext; auto.
  rewrite Hfs, Hf. reflexivity.
Qed.

Lemma get_open_positions_reliable (w : world) :
  faults w = [] ->
  get_open_positions w = (Returned (open_positions_of (db w)), w).
Proof.
  intros Hf. destruct (get_open_positions_cases w) as (w' & E & Hr).
  rewrite E, Hf. simpl. rewrite (only_reads_reliable w w' Hf Hr). reflexivity.
Qed.

(** The two things [admit_signal] can do on a driver without faults: nothing,
    or open the position the limit check has let through. *)
Lemma admit_signal_reliable (pm : manager) (symbol : string) (b : bar)
      (sg : signal) (w : world) :
  faults w = [] ->
  admit_signal pm symbol b sg w = (Returned tt, w)
  \/ exists atr q,
      b_atr_14 b = Some atr
      /\ limit_passed pm symbol (s_signal_type sg) (s_value sg) atr
                      (open_positions_of (db w)) q
      /\ List.find (same_open symbol (s_signal_type sg) (s_value sg))
                   (positions (db w)) = None
      /\ let p := with_id (next_id (db w))
                          (position_doc symbol (s_signal_type sg) (s_value sg)
                                        (b_timestamp b) q atr
                                        (s_stop_loss sg) (s_take_profit sg)) in
         admit_signal pm symbol b sg w
         = (Returned tt,
            {| db := inserted (db w) p;
               faults := [];
               journal := journal w
                          ++ [(InsertPosition p, inserted (db w) p)] |}).
Proof.
  intros Hf. unfold admit_signal, bind, ret.
  destruct (b_atr_14 b) as [atr|] eqn:Hatr; [|left; reflexivity].
  destruct (check_position_limit_cases
              pm symbol (s_signal_type sg) (s_value sg) atr w)
    as (res & w1 & E & Hpass & Hr).
  rewrite (only_reads_reliable w w1 Hf Hr) in E. rewrite Hf in Hpass.
  simpl in Hpass. rewrite E.
  destruct res as [q|]; [|left; reflexivity].
  specialize (Hpass q eq_refl).
  rewrite (limit_passed_truthy _ _ _ _ _ _ _ Hpass).
  destruct (has_open_position_cases symbol (s_signal_type sg) (s_value sg) w)
    as (w2 & E2 & Hr2).
  rewrite (only_reads_reliable w w2 Hf Hr2) in E2. rewrite Hf in E2.
  simpl in E2. rewrite E2.
  destruct (List.find (same_open symbol (s_signal_type sg) (s_value sg))
                      (positions (db w))) eqn:Hfind; [left; reflexivity|].
  right. exists atr, q. split; [reflexivity|]. split; [exact Hpass|].
  split; [reflexivity|]. cbv zeta.
  destruct (open_position_cases
              symbol (s_signal_type sg) (s_value sg) (b_timestamp b) q atr
              (s_stop_loss sg) (s_take_profit sg) w) as [[Hh _]|[_ E3]].
  { rewrite Hf in Hh. discriminate. }
  rewrite E3, Hf. reflexivity.
Qed.

(** The same for [close_position]: nothing, or the status update followed by
    the insertion of the trade. *)
Lemma close_position_reliable (pm : manager) (position_id : nat)
      (exit_price : Q) (exit_time : Z) (reason : string) (w : world) :
  faults w = [] ->
  close_position pm position_id exit_price exit_time reason w
  = (Returned None, w)
  \/ exists p,
      List.find (fun p => Nat.eqb (p_id p) position_id) (positions (db w))
      = Some p
      /\ ~ leverage pm == 0
      /\ let doc := trade_doc pm p exit_price exit_time reason in
         let s1 := {| positions :=
                        set_status position_id Closed (positions (db w));
                      trades := trades (db w);
                      next_id := next_id (db w) |} in
         let s2 := {| positions := positions s1;
                      trades := trades (db w) ++ [doc];
                      next_id := next_id (db w) |} in
         close_position pm position_id exit_price exit_time reason w
         = (Returned (Some doc),
            {| db := s2; faults := [];
               journal := journal w ++ [(UpdateStatus position_id, s1);
                                        (InsertTrade doc, s2)] |}).
Proof.
  intros Hf.
  pose proof (close_position_cases pm position_id exit_price exit_time
                                   reason w) as C.
  destruct (close_position pm position_id exit_price exit_time reason w)
    as [r w'].
  simpl in C.
  inversion C as [w0 Hh|w0 ? ? Hdb Hj Hfs|p w0 ? ? ? Hdb Hj Hfs|p w0 ? ? ? Hh
                  |p w0 ? ? ? ? Hh
                  |p w0 s1 ? Hfind Hlev ? ? Hs1 Hdb Hj Hfs];
    try (rewrite Hf in Hh; simpl in Hh; discriminate); subst.
  - left. f_equal. apply world_ext; auto. rewrite Hfs, Hf. reflexivity.
  - left. f_equal. apply world_ext; auto. rewrite Hfs, Hf. reflexivity.
  - right. exists p. split; [exact Hfind|]. split; [exact Hlev|]. cbv zeta.
    f_equal. rewrite Hf in Hfs. destruct w' as [d f j]. simpl in *.
    subst. reflexivity.
Qed.

(** *** The number of open positions *)

Lemma open_count_set_status (id : nat) (ps : list position) :
  (List.length (filter is_open (set_status id Closed ps))
   <= List.length (filter is_open ps))%nat.
Proof.
  induction ps as [|a ps IH]; simpl; [lia|].
  destruct (Nat.eqb (p_id a) id); simpl.
  - destruct (is_open a); simpl; lia.
  - destruct (is_open a); simpl; lia.
Qed.

Lemma open_count_inserted (s : store) (p : position) :
  p_status p = Open -> open_count (inserted s p) = S (open_count s).
Proof.
  intros H. unfold open_count, open_positions_of, inserted. simpl.
  rewrite filter_app, length_app. simpl. unfold is_open at 2.
  rewrite H. simpl. lia.
Qed.

Lemma count_invariant_get (pm : manager) :
  preserves (count_invariant pm) get_open_positions.
Proof.
  intros w H. rewrite get_open_positions_reliable; [exact H|apply H].
Qed.

Lemma count_invariant_close (pm : manager) (position_id : nat)
      (exit_price : Q) (exit_time : Z) (reason : string) :
  preserves (count_invariant pm)
            (close_position pm position_id exit_price exit_time reason).
Proof.
  intros w (Hf & Hb & Hj).
  destruct (close_position_reliable pm position_id exit_price exit_time
                                    reason w Hf) as [E|(p & _ & _ & E)];
    rewrite E; simpl.
  - repeat split; assumption.
  - assert (B : within_limit
                  pm {| positions :=
                          set_status position_id Closed (positions (db w));
                        trades := trades (db w);
                        next_id := next_id (db w) |}).
    { unfold within_limit, open_count, open_positions_of in *. simpl.
      pose proof (open_count_set_status position_id (positions (db w))).
      lia. }
    split; [reflexivity|]. split; [exact B|].
    apply Forall_app. split; [exact Hj|].
    repeat constructor; exact B.
Qed.

Lemma count_invariant_admit (pm : manager) (symbol : string) (b : bar)
      (sg : signal) :
  preserves (count_invariant pm) (admit_signal pm symbol b sg).
Proof.
  intros w (Hf & Hb & Hj).
  destruct (admit_signal_reliable pm symbol b sg w Hf)
    as [E|(atr & q & _ & (_ & _ & Hlen & _) & _ & E)]; rewrite E; simpl.
  - repeat split; assumption.
  - assert (B : within_limit
                  pm (inserted (db w)
                        (with_id (next_id (db w))
                           (position_doc symbol (s_signal_type sg) (s_value sg)
                              (b_timestamp b) q atr
                              (s_stop_loss sg) (s_take_profit sg))))).
    { unfold within_limit. rewrite open_count_inserted by reflexivity.
      unfold open_count. lia. }
    split; [reflexivity|]. split; [exact B|].
    apply Forall_app. split; [exact Hj|].
    repeat constructor; exact B.
Qed.

(** C9: started on a store within the limit, the replay of a symbol never
    has more than [max_positions] open positions, after any write and at its
    end; and [check_position_limit] rejects every candidate while the count is
    at the maximum. *)
Theorem open_positions_bounded
        (pm : manager) (symbol : string) (df : list bar)
        (signals_data : list signal) (s : store) :
  (Z.of_nat (open_count s) <= max_positions pm)%Z ->
  let w := snd (backtest_symbol pm symbol df signals_data (reliable s)) in
  Forall (fun e => (Z.of_nat (open_count (snd e)) <= max_positions pm)%Z)
         (journal w)
  /\ (Z.of_nat (open_count (db w)) <= max_positions pm)%Z
  /\ (forall s' symbol' side entry_price atr,
         (max_positions pm <= Z.of_nat (open_count s'))%Z ->
         fst (check_position_limit pm symbol' side entry_price atr
                                   (reliable s')) = Returned None).
Proof.
  intros H. cbv zeta.
  assert (J : count_invariant
                pm (snd (backtest_symbol pm symbol df signals_data
                                         (reliable s)))).
  { apply backtest_symbol_preserves.
    - apply count_invariant_get.
    - apply count_invariant_close.
    - apply count_invariant_admit.
    - split; [reflexivity|]. split; [exact H|constructor]. }
  destruct J as (_ & Hb & Hj). split; [exact Hj|]. split; [exact Hb|].
  intros s' symbol' side entry_price atr Hmax.
  destruct (check_position_limit_cases pm symbol' side entry_price atr
                                       (reliable s'))
    as (res & w' & E & Hpass & _).
  rewrite E. simpl. destruct res as [q|]; [|reflexivity].
  destruct (Hpass q eq_refl) as (_ & _ & Hlen & _). simpl in Hlen.
  unfold open_count in Hmax. lia.
Qed.

(** *** The risk admitted by the limit check *)

Lemma add_risks_sum (ps : list position) (total r : Q) :
  add_risks total ps = Some r ->
  r == total + risk_sum ps
  /\ Forall (fun q => p_stop_loss q <> None) ps.
Proof.
  revert total. induction ps as [|a ps IH]; intros total H.
  - injection H as <-. split; [cbn [risk_sum]; ring|constructor].
  - cbn [add_risks] in H. cbn [risk_sum]. unfold position_risk.
    destruct (p_stop_loss a) as [st|] eqn:Ea; [|discriminate].
    destruct (IH _ H) as (Hr & Hall). split.
    + rewrite Hr. ring.
    + constructor; [congruence|exact Hall].
Qed.

Lemma risk_sum_app (a b : list position) :
  risk_sum (a ++ b) == risk_sum a + risk_sum b.
Proof.
  induction a as [|x a IH].
  - cbn [app risk_sum]. ring.
  - change (position_risk x + risk_sum (a ++ b)
            == position_risk x + risk_sum a + risk_sum b).
    rewrite IH. ring.
Qed.

Lemma derived_stop_distance (pm : manager) (side : string)
      (entry_price atr : Q) :
  Qabs (entry_price - stop_loss_price pm side entry_price atr)
  == Qabs (atr * stop_loss_atr pm).
Proof.
  unfold stop_loss_price. destruct (String.eqb side "long").
  - assert (E : entry_price - (entry_price - atr * stop_loss_atr pm)
                == atr * stop_loss_atr pm) by ring.
    rewrite E. reflexivity.
  - assert (E : entry_price - (entry_price + atr * stop_loss_atr pm)
                == - (atr * stop_loss_atr pm)) by ring.
    rewrite E. apply Qabs_opp.
Qed.

Lemma open_positions_inserted (s : store) (p : position) :
  p_status p = Open ->
  open_positions_of (inserted s p) = (open_positions_of s ++ [p])%list.
Proof.
  intros Hopen. unfold open_positions_of, inserted. simpl.
  rewrite filter_app. simpl. unfold is_open at 2. rewrite Hopen. reflexivity.
Qed.

Lemma risk_invariant_get (pm : manager) :
  preserves (risk_invariant pm) get_open_positions.
Proof.
  intros w H. rewrite get_open_positions_reliable; [exact H|apply H].
Qed.

Lemma risk_invariant_close (pm : manager) (position_id : nat)
      (exit_price : Q) (exit_time : Z) (reason : string) :
  preserves (risk_invariant pm)
            (close_position pm position_id exit_price exit_time reason).
Proof.
  intros w (Hf & Hj).
  destruct (close_position_reliable pm position_id exit_price exit_time
                                    reason w Hf) as [E|(p & _ & _ & E)];
    rewrite E; simpl.
  - split; assumption.
  - split; [reflexivity|]. apply Forall_app. split; [exact Hj|].
    repeat constructor.
Qed.

Lemma risk_invariant_admit (pm : manager) (symbol : string) (b : bar)
      (sg : signal) :
  preserves (risk_invariant pm) (admit_signal pm symbol b sg).
Proof.
  intros w (Hf & Hj).
  destruct (admit_signal_reliable pm symbol b sg w Hf)
    as [E|(atr & q & _ & (_ & Hq & _ & total & Hsum & Hle) & _ & E)];
    rewrite E; simpl.
  - split; assumption.
  - split; [reflexivity|]. apply Forall_app. split; [exact Hj|].
    constructor; [|constructor].
    set (p := with_id (next_id (db w))
                      (position_doc symbol (s_signal_type sg) (s_value sg)
                                    (b_timestamp b) q atr
                                    (s_stop_loss sg) (s_take_profit sg))).
    change (risk_checked pm p (inserted (db w) p)).
    destruct (add_risks_sum _ _ _ Hsum) as (Htotal & Hall).
    assert (Hcap : risk_sum (open_positions_of (db w))
                   + Qabs (p_atr p * stop_loss_atr pm) * p_qty p
                   <= max_risk pm * capital pm).
    { change (p_atr p) with atr. change (p_qty p) with q.
      rewrite <- (derived_stop_distance pm (s_signal_type sg) (s_value sg)).
      rewrite Htotal, Qplus_0_l in Hle. exact Hle. }
    exists (positions (db w)).
    split; [reflexivity|]. split; [exact Hall|]. split; [exact Hcap|].
    intros stop Hstop Hnear.
    rewrite open_positions_inserted by reflexivity.
    rewrite risk_sum_app.
    eapply Qle_trans; [|exact Hcap].
    apply Qplus_le_r. cbn [risk_sum]. unfold position_risk. rewrite Hstop.
    rewrite Qplus_0_r. change (p_qty p) with q.
    apply Qmult_le_compat_r; [exact Hnear|apply Qlt_le_weak; exact Hq].
Qed.

(** C2, as the code has it, for a replay of signals that carry both levels:
    right after every insertion of a position, the positions that were open
    before all store a stop level, and the sum of their
    [|entry - stop| * quantity] plus the risk of the new one at the distance
    [atr * stop_loss_atr] is at most [max_risk * capital]; the sum over all
    open positions with their stored stop levels is bounded when the stored
    stop of the new position lies no farther from its entry than that
    distance. *)
Theorem risk_checked_at_open
        (pm : manager) (symbol : string) (df : list bar)
        (signals_data : list signal) (s : store) (p : position) (s' : store) :
  Forall carries_levels signals_data ->
  In (InsertPosition p, s')
     (journal (snd (backtest_symbol pm symbol df signals_data (reliable s)))) ->
  exists before,
    positions s' = (before ++ [p])%list
    /\ Forall (fun q => p_stop_loss q <> None) (filter is_open before)
    /\ risk_sum (filter is_open before)
       + Qabs (p_atr p * stop_loss_atr pm) * p_qty p
       <= max_risk pm * capital pm
    /\ forall stop,
        p_stop_loss p = Some stop ->
        Qabs (p_entry_price p - stop) <= Qabs (p_atr p * stop_loss_atr pm) ->
        risk_sum (open_positions_of s') <= max_risk pm * capital pm.
Proof.
  intros _ Hin.
  assert (J : risk_invariant
                pm (snd (backtest_symbol pm symbol df signals_data
                                         (reliable s)))).
  { apply backtest_symbol_preserves.
    - apply risk_invariant_get.
    - apply risk_invariant_close.
    - apply risk_invariant_admit.
    - split; [reflexivity|constructor]. }
  destruct J as (_ & Hj). rewrite Forall_forall in Hj.
  exact (Hj _ Hin).
Qed.

(** *** Well-formed stores *)

Lemma set_status_ids (id : nat) (st : status) (ps : list position) :
  map p_id (set_status id st ps) = map p_id ps.
Proof.
  induction ps as [|a ps IH]; simpl; [reflexivity|].
  destruct (Nat.eqb (p_id a) id); simpl; [reflexivity|].
  rewrite IH. reflexivity.
Qed.

Lemma set_status_keeps (id : nat) (st : status) (ps : list position)
      (p : position) :
  In p ps -> p_id p <> id -> In p (set_status id st ps).
Proof.
  induction ps as [|a ps IH]; intros Hin Hid; [contradiction|].
  simpl. destruct (Nat.eqb (p_id a) id) eqn:E.
  - destruct Hin as [->|Hin].
    + apply Nat.eqb_eq in E. contradiction.
    + right. exact Hin.
  - destruct Hin as [->|Hin]; [left; reflexivity|right; auto].
Qed.

Lemma set_status_open_in (id : nat) (ps : list position) (q : position) :
  In q (set_status id Closed ps) ->
  is_open q = true ->
  In q ps /\ (NoDup (map p_id ps) -> p_id q <> id).
Proof.
  induction ps as [|a ps IH]; intros Hin Hopen; [contradiction|].
  simpl in Hin. destruct (Nat.eqb (p_id a) id) eqn:E.
  - destruct Hin as [<-|Hin]; [discriminate|].
    split; [right; exact Hin|].
    intros Hnd Heq. inversion Hnd as [|x l Hnotin _]; subst.
    apply Nat.eqb_eq in E. apply Hnotin. rewrite E.
    apply in_map. exact Hin.
  - destruct Hin as [<-|Hin].
    + split; [left; reflexivity|]. intros _. apply Nat.eqb_neq. exact E.
    + destruct (IH Hin Hopen) as [H1 H2]. split; [right; exact H1|].
      intros Hnd. apply H2. inversion Hnd. assumption.
Qed.

Lemma find_by_id (ps : list position) (p : position) :
  NoDup (map p_id ps) ->
  In p ps ->
  List.find (fun x => Nat.eqb (p_id x) (p_id p)) ps = Some p.
Proof.
  induction ps as [|a ps IH]; intros Hnd Hin; [contradiction|].
  simpl. inversion Hnd as [|x l Hnotin Hnd']; subst.
  destruct (Nat.eqb (p_id a) (p_id p)) eqn:E.
  - destruct Hin as [->|Hin]; [reflexivity|].
    exfalso. apply Hnotin. apply Nat.eqb_eq in E. rewrite E.
    apply in_map. exact Hin.
  - destruct Hin as [->|Hin].
    + rewrite Nat.eqb_refl in E. discriminate.
    + apply IH; assumption.
Qed.

Lemma NoDup_ids_filter (f : position -> bool) (ps : list position) :
  NoDup (map p_id ps) -> NoDup (map p_id (filter f ps)).
Proof.
  induction ps as [|a ps IH]; intros Hnd; simpl; [constructor|].
  inversion Hnd as [|x l Hnotin Hnd']; subst.
  destruct (f a); simpl; [|auto].
  constructor; [|auto].
  intros Hin. apply Hnotin. apply in_map_iff in Hin.
  destruct Hin as (x & Hx & Hin). apply filter_In in Hin.
  rewrite <- Hx. apply in_map. apply Hin.
Qed.

Lemma filter_none {A} (f : A -> bool) (l : list A) :
  (forall x, In x l -> f x = true -> False) -> filter f l = [].
Proof.
  induction l as [|a l IH]; intros H; simpl; [reflexivity|].
  destruct (f a) eqn:E.
  - exfalso. apply (H a); [left; reflexivity|exact E].
  - apply IH. intros x Hx. apply H. right. exact Hx.
Qed.

Lemma iloc_last_nonempty (df : list bar) :
  df <> [] -> exists b, iloc_last df = Some b.
Proof.
  induction df as [|a df IH]; intros H; [congruence|].
  destruct df as [|a' df]; [exists a; reflexivity|].
  destruct IH as [b Hb]; [discriminate|]. exists b. exact Hb.
Qed.

Lemma sound_get : preserves sound get_open_positions.
Proof.
  intros w H. rewrite get_open_positions_reliable; [exact H|apply H].
Qed.

Lemma sound_close (pm : manager) (position_id : nat)
      (exit_price : Q) (exit_time : Z) (reason : string) :
  preserves sound (close_position pm position_id exit_price exit_time reason).
Proof.
  intros w (Hf & Hnd & Hlt).
  destruct (close_position_reliable pm position_id exit_price exit_time
                                    reason w Hf) as [E|(p & _ & _ & E)];
    rewrite E; simpl.
  - repeat split; assumption.
  - split; [reflexivity|]. split; simpl.
    + rewrite set_status_ids. exact Hnd.
    + apply Forall_forall. intros x Hx.
      assert (Hid : In (p_id x) (map p_id (positions (db w)))).
      { rewrite <- (set_status_ids position_id Closed). apply in_map.
        exact Hx. }
      apply in_map_iff in Hid. destruct Hid as (y & Hy & Hiny).
      rewrite Forall_forall in Hlt. rewrite <- Hy. apply Hlt. exact Hiny.
Qed.

Lemma sound_admit (pm : manager) (symbol : string) (b : bar) (sg : signal) :
  preserves sound (admit_signal pm symbol b sg).
Proof.
  intros w (Hf & Hnd & Hlt).
  destruct (admit_signal_reliable pm symbol b sg w Hf)
    as [E|(atr & q & _ & _ & _ & E)]; rewrite E; simpl.
  - repeat split; assumption.
  - split; [reflexivity|]. split; simpl.
    + rewrite map_app. simpl. apply NoDup_app_remove_l with (l := []).
      simpl. apply NoDup_rev in Hnd.
      rewrite <- (rev_involutive (map p_id (positions (db w)) ++ _)).
      apply NoDup_rev. rewrite rev_app_distr. simpl.
      constructor; [|exact Hnd].
      intros Hin. apply in_rev in Hin. apply in_map_iff in Hin.
      destruct Hin as (y & Hy & Hiny).
      rewrite Forall_forall in Hlt. specialize (Hlt y Hiny). lia.
    + apply Forall_app. split.
      * eapply Forall_impl; [|exact Hlt]. simpl. intros; lia.
      * constructor; [simpl; lia|constructor].
Qed.

(** *** The loop never lets an exception escape *)

Lemma returns_ret {A} (a : A) : returns (ret a).
Proof. intros w. exists a. reflexivity. Qed.

Lemma returns_bind {A B} (m : M A) (k : A -> M B) :
  returns m -> (forall a, returns (k a)) -> returns (bind m k).
Proof.
  intros Hm Hk w. unfold bind. destruct (Hm w) as [a Ha].
  destruct (m w) as [r w']. simpl in Ha. subst r. apply Hk.
Qed.

Lemma returns_for_each {A} (body : A -> M unit) (l : list A) :
  (forall a, returns (body a)) -> returns (for_each body l).
Proof.
  intros Hb. induction l as [|a l IH]; simpl.
  - apply returns_ret.
  - apply returns_bind; [apply Hb|intros _; exact IH].
Qed.

Lemma returns_get : returns get_open_positions.
Proof.
  intros w. destruct (get_open_positions_cases w) as (w' & E & _).
  rewrite E. eexists. reflexivity.
Qed.

Lemma returns_close (pm : manager) (position_id : nat) (exit_price : Q)
      (exit_time : Z) (reason : string) :
  returns (close_position pm position_id exit_price exit_time reason).
Proof. intros w. apply close_position_returns. Qed.

Lemma returns_admit (pm : manager) (symbol : string) (b : bar) (sg : signal) :
  returns (admit_signal pm symbol b sg).
Proof.
  unfold admit_signal. destruct (b_atr_14 b) as [atr|]; [|apply returns_ret].
  apply returns_bind.
  - intros w. destruct (check_position_limit_cases
                          pm symbol (s_signal_type sg) (s_value sg) atr w)
      as (res & w' & E & _).
    rewrite E. eexists. reflexivity.
  - intros [q|]; [|apply returns_ret].
    destruct (negb (Qeq_bool q 0) && Qlt_bool 0 q); [|apply returns_ret].
    apply returns_bind.
    + intros w. destruct (has_open_position_cases
                            symbol (s_signal_type sg) (s_value sg) w)
        as (w' & E & _).
      rewrite E. eexists. reflexivity.
    + intros [|]; [apply returns_ret|].
      apply returns_bind; [|intros; apply returns_ret].
      intros w.
      destruct (open_position_cases
                  symbol (s_signal_type sg) (s_value sg) (b_timestamp b) q atr
                  (s_stop_loss sg) (s_take_profit sg) w) as [[_ E]|[_ E]];
        rewrite E; eexists; reflexivity.
Qed.

Lemma returns_bar_loop (pm : manager) (symbol : string)
      (df rows : list bar) (sigs : list signal) :
  returns (bar_loop pm symbol df rows sigs).
Proof.
  revert sigs. induction rows as [|b rows IH]; intros sigs; simpl.
  - apply returns_ret.
  - apply returns_bind.
    + unfold exit_phase. apply returns_bind; [apply returns_get|].
      intros ops. apply returns_for_each. intros pos. unfold exit_position.
      destruct (check_exit_conditions pm pos (data_since_entry df pos)).
      * apply returns_ret.
      * apply returns_bind; [apply returns_close|intros; apply returns_ret].
    + intros _. apply returns_bind; [|intros left; apply IH].
      induction sigs as [|sg sigs IHs]; simpl; [apply returns_ret|].
      destruct (s_timestamp sg <=? b_timestamp b)%Z; [|apply returns_ret].
      apply returns_bind; [apply returns_admit|intros _; exact IHs].
Qed.

(** *** The forced close *)

Lemma close_position_found (pm : manager) (p : position) (exit_price : Q)
      (exit_time : Z) (reason : string) (w : world) :
  faults w = [] ->
  List.find (fun x => Nat.eqb (p_id x) (p_id p)) (positions (db w)) = Some p ->
  ~ leverage pm == 0 ->
  let doc := trade_doc pm p exit_price exit_time reason in
  let s1 := {| positions := set_status (p_id p) Closed (positions (db w));
               trades := trades (db w);
               next_id := next_id (db w) |} in
  let s2 := {| positions := positions s1;
               trades := trades (db w) ++ [doc];
               next_id := next_id (db w) |} in
  close_position pm (p_id p) exit_price exit_time reason w
  = (Returned (Some doc),
     {| db := s2; faults := [];
        journal := journal w ++ [(UpdateStatus (p_id p), s1);
                                 (InsertTrade doc, s2)] |}).
Proof.
  intros Hf Hfind Hlev. cbv zeta.
  destruct (close_position_reliable pm (p_id p) exit_price exit_time reason
                                    w Hf) as [E|(p' & Hfind' & _ & E)].
  - exfalso.
    pose proof (close_position_cases pm (p_id p) exit_price exit_time
                                     reason w) as C.
    rewrite E in C. simpl in C.
    inversion C as [w0 Hh|w0 ? Hn|p' w0 ? ? Hz|p' w0 ? ? ? Hh
                    |p' w0 ? ? ? ? Hh|];
      try (rewrite Hf in Hh; simpl in Hh; discriminate);
      congruence || contradiction.
  - rewrite Hfind in Hfind'. injection Hfind' as <-. exact E.
Qed.

Lemma force_close_all (pm : manager) (last_bar : bar) :
  ~ leverage pm == 0 ->
  forall (l : list position) (w : world),
    faults w = [] ->
    NoDup (map p_id (positions (db w))) ->
    NoDup (map p_id l) ->
    (forall p, In p l -> In p (positions (db w))) ->
    exists w',
      for_each (force_close_position pm last_bar) l w = (Returned tt, w')
      /\ faults w' = []
      /\ trades (db w') = (trades (db w) ++ map (forced_trade pm last_bar) l)%list
      /\ map p_id (positions (db w')) = map p_id (positions (db w))
      /\ next_id (db w') = next_id (db w)
      /\ (forall q, In q (positions (db w')) -> is_open q = true ->
                    In q (positions (db w)) /\ ~ In (p_id q) (map p_id l)).
Proof.
  intros Hlev l. induction l as [|p l IH]; intros w Hf Hnd Hl Hin.
  - exists w. simpl. rewrite app_nil_r. repeat split; auto.
  - simpl. unfold bind. unfold force_close_position at 1. unfold bind.
    rewrite (close_position_found pm p _ _ _ w Hf
               (find_by_id _ p Hnd (Hin p (or_introl eq_refl))) Hlev).
    cbv beta iota. unfold ret at 1. cbv beta iota.
    inversion Hl as [|x xs Hnotin Hl']; subst.
    match goal with
    | |- context [for_each _ l ?W] => destruct (IH W) as (w' & E & Hf' & Ht & Hids & Hnext & Hopen)
    end.
    + reflexivity.
    + simpl. rewrite set_status_ids. exact Hnd.
    + exact Hl'.
    + intros p' Hp'. simpl. apply set_status_keeps.
      * apply Hin. right. exact Hp'.
      * intros Heq. apply Hnotin. rewrite <- Heq. apply in_map. exact Hp'.
    + exists w'. split; [exact E|]. split; [exact Hf'|].
      simpl in Ht, Hids, Hnext, Hopen. split.
      { rewrite Ht, <- app_assoc. reflexivity. }
      split; [rewrite Hids; apply set_status_ids|].
      split; [exact Hnext|].
      intros q Hq Hqo. destruct (Hopen q Hq Hqo) as [Hq1 Hq2].
      destruct (set_status_open_in _ _ _ Hq1 Hqo) as [Hq3 Hq4].
      split; [exact Hq3|]. simpl. intros [Heq|Hin']; [|contradiction].
      apply (Hq4 Hnd). symmetry. exact Heq.
Qed.

(** C3, as the code has it: when the bars are exhausted every position
    still open is closed at the close price and the time stamp of the last
    bar, with the reason "End of Backtest", and no position is left open. *)
Theorem forced_close_at_exhaustion
        (pm : manager) (symbol : string) (df : list bar)
        (signals_data : list signal) (s : store) :
  store_wf s ->
  ~ leverage pm == 0 ->
  dropna df <> [] ->
  signals_data <> [] ->
  exists left w1 last_bar,
    bar_loop pm symbol (dropna df) (dropna df) signals_data (reliable s)
    = (Returned left, w1)
    /\ iloc_last (dropna df) = Some last_bar
    /\ fst (backtest_symbol pm symbol df signals_data (reliable s))
       = Returned tt
    /\ let w2 := snd (backtest_symbol pm symbol df signals_data (reliable s))
       in
       open_positions_of (db w2) = []
       /\ trades (db w2)
          = (trades (db w1)
             ++ map (fun p => trade_doc pm p (b_close last_bar)
                                        (b_timestamp last_bar)
                                        "End of Backtest")
                    (open_positions_of (db w1)))%list.
Proof.
  intros Hwf Hlev Hdf Hsig.
  destruct (iloc_last_nonempty (dropna df) Hdf) as [last_bar Hlast].
  destruct (returns_bar_loop pm symbol (dropna df) (dropna df) signals_data
                             (reliable s)) as [left Hret].
  assert (Hsound : sound (snd (bar_loop pm symbol (dropna df) (dropna df)
                                        signals_data (reliable s)))).
  { apply bar_loop_preserves.
    - apply sound_get.
    - apply sound_close.
    - apply sound_admit.
    - split; [reflexivity|exact Hwf]. }
  destruct (bar_loop pm symbol (dropna df) (dropna df) signals_data
                     (reliable s)) as [r w1] eqn:Eloop.
  simpl in Hret, Hsound. subst r. destruct Hsound as (Hf1 & Hnd1 & _).
  exists left, w1, last_bar. split; [reflexivity|]. split; [exact Hlast|].
  assert (E : backtest_symbol pm symbol df signals_data (reliable s)
              = force_close pm (dropna df) w1).
  { unfold backtest_symbol.
    destruct (dropna df) as [|b0 rows]; [congruence|].
    destruct signals_data as [|sg sigs]; [congruence|].
    unfold bind. rewrite Eloop. reflexivity. }
  rewrite E. unfold force_close, bind.
  rewrite (get_open_positions_reliable w1 Hf1).
  destruct (open_positions_of (db w1)) as [|p l] eqn:Eopen.
  - simpl. split; [reflexivity|]. split; [exact Eopen|].
    rewrite app_nil_r. reflexivity.
  - rewrite <- Eopen. replace (0 <? List.length (open_positions_of (db w1)))%nat
      with true by (rewrite Eopen; reflexivity).
    rewrite Hlast.
    destruct (force_close_all pm last_bar Hlev (open_positions_of (db w1)) w1
                              Hf1 Hnd1)
      as (w2 & E2 & _ & Ht & _ & _ & Hopen).
    + apply NoDup_ids_filter. exact Hnd1.
    + intros q Hq. apply filter_In in Hq. apply Hq.
    + rewrite E2. simpl. split; [reflexivity|]. split; [|exact Ht].
      apply filter_none. intros q Hq Hqo.
      destruct (Hopen q Hq Hqo) as [Hq1 Hq2]. apply Hq2.
      apply in_map. apply filter_In. split; assumption.
Qed.

Lemma forced_close_at_exhaustion_witness :
  exists left w1 last_bar,
    bar_loop Sample.pm "BTC/USDT" (dropna Sample.df) (dropna Sample.df)
             [Sample.far_signal] (reliable Sample.empty)
    = (Returned left, w1)
    /\ iloc_last (dropna Sample.df) = Some last_bar
    /\ fst (backtest_symbol Sample.pm "BTC/USDT" Sample.df
                            [Sample.far_signal]
                            (reliable Sample.empty))
       = Returned tt
    /\ let w2 := snd (backtest_symbol Sample.pm "BTC/USDT" Sample.df
                                      [Sample.far_signal]
                                      (reliable Sample.empty)) in
       open_positions_of (db w2) = []
       /\ trades (db w2)
          = (trades (db w1)
             ++ map (fun p => trade_doc Sample.pm p (b_close last_bar)
                                        (b_timestamp last_bar)
                                        "End of Backtest")
                    (open_positions_of (db w1)))%list.
Proof.
  apply (forced_close_at_exhaustion
           Sample.pm "BTC/USDT" Sample.df
           [Sample.far_signal] Sample.empty).
  - split; constructor.
  - discriminate.
  - discriminate.
  - discriminate.
Defined.

(** C3 fails on the reason: the trade of the forced close carries
    "End of Backtest". *)
Lemma forced_close_reason_text :
  exists t,
    trades (db (snd (backtest_symbol Sample.pm "BTC/USDT" Sample.df
                                     [Sample.far_signal]
                                     (reliable Sample.empty))))
    = [t]
    /\ t_exit_price t == 96
    /\ t_close_time t = 4%Z
    /\ t_reason t = "End of Backtest"
    /\ t_reason t <> "end_of_backtest".
Proof.
  eexists. split; [vm_compute; reflexivity|].
  split; [reflexivity|]. split; [reflexivity|]. split; [reflexivity|].
  discriminate.
Qed.

(** ** The bars of the exit phase *)

Lemma filter_twice {A} (f : A -> bool) (l : list A) :
  filter f (filter f l) = filter f l.
Proof.
  induction l as [|a l IH]; simpl; [reflexivity|].
  destruct (f a) eqn:E; simpl; [rewrite E, IH; reflexivity|exact IH].
Qed.

Lemma since_twice (t : Z) (df : list bar) : since t (since t df) = since t df.
Proof. unfold since. apply filter_twice. Qed.

Lemma exit_on_bar_time (pm : manager) (side : string) (stop take : Q)
      (b : bar) (x : Q) (t : Z) (r : string) :
  exit_on_bar pm side stop take b = Exited x t r -> t = b_timestamp b.
Proof.
  unfold exit_on_bar.
  destruct (String.eqb side "long");
    [|destruct (String.eqb side "short")];
    repeat match goal with
           | |- context [if ?c then _ else _] => destruct c
           end;
    intros H; inversion H; reflexivity.
Qed.

Lemma scan_bars_first (pm : manager) (pos : position) (rows : list bar)
      (x : Q) (t : Z) (r : string) :
  scan_bars pm pos rows = Exited x t r ->
  exists stop take pre b post,
    p_stop_loss pos = Some stop
    /\ p_take_profit pos = Some take
    /\ rows = (pre ++ b :: post)%list
    /\ (forall b', In b' pre ->
                   exit_on_bar pm (lower (p_side pos)) stop take b'
                   = NotExited)
    /\ exit_on_bar pm (lower (p_side pos)) stop take b = Exited x t r.
Proof.
  induction rows as [|a rows IH]; simpl; [discriminate|].
  destruct (p_stop_loss pos) as [stop|] eqn:Hs.
  2:{ intros H. destruct (IH H) as (? & ? & _ & _ & _ & ? & _). discriminate. }
  destruct (p_take_profit pos) as [take|] eqn:Ht.
  2:{ intros H. destruct (IH H) as (? & ? & _ & _ & _ & _ & ? & _).
      discriminate. }
  destruct (exit_on_bar pm (lower (p_side pos)) stop take a) eqn:Ea.
  - intros H. destruct (IH H)
      as (stop' & take' & pre & b & post & Hs' & Ht' & -> & Hpre & Hb).
    injection Hs' as <-. injection Ht' as <-.
    exists stop, take, (a :: pre), b, post. repeat split; auto.
    intros b' [<-|Hin]; [exact Ea|apply Hpre; exact Hin].
  - intros H. injection H as <- <- <-.
    exists stop, take, [], a, rows. repeat split; auto.
    intros b' [].
Qed.

(** C1, as the code has it: the bars handed to [check_exit_conditions] for a
    position are all the bars of the frame at or after its open time, the
    bars after the current one included; the exit is taken on the first of
    them that triggers. *)
Theorem exit_scan_bar_set (pm : manager) (pos : position) (df : list bar) :
  (forall b, In b (data_since_entry df pos)
             <-> In b df /\ (p_open_time pos <= b_timestamp b)%Z)
  /\ check_exit_conditions pm pos (data_since_entry df pos)
     = check_exit_conditions pm pos df
  /\ (forall x t r,
         check_exit_conditions pm pos (data_since_entry df pos)
         = Exited x t r ->
         exists stop take pre b post,
           p_stop_loss pos = Some stop
           /\ p_take_profit pos = Some take
           /\ data_since_entry df pos = (pre ++ b :: post)%list
           /\ (forall b', In b' pre ->
                          exit_on_bar pm (lower (p_side pos)) stop take b'
                          = NotExited)
           /\ exit_on_bar pm (lower (p_side pos)) stop take b = Exited x t r
           /\ t = b_timestamp b
           /\ In b df).
Proof.
  split; [|split].
  - intros b. unfold data_since_entry, since. rewrite filter_In.
    rewrite Z.leb_le. reflexivity.
  - unfold check_exit_conditions, data_since_entry.
    rewrite since_twice. reflexivity.
  - intros x t r H. unfold check_exit_conditions, data_since_entry in *.
    rewrite since_twice in H.
    destruct (scan_bars_first pm pos _ x t r H)
      as (stop & take & pre & b & post & Hs & Ht & Hrows & Hpre & Hb).
    exists stop, take, pre, b, post. repeat split; auto.
    + eapply exit_on_bar_time. exact Hb.
    + assert (Hin : In b (since (p_open_time pos) df)).
      { rewrite Hrows. apply in_or_app. right. left. reflexivity. }
      unfold since in Hin. apply filter_In in Hin. apply Hin.
Qed.

Lemma exit_scan_bar_set_witness :
  exists stop take pre b post,
    p_stop_loss (Sample.long_position Open) = Some stop
    /\ p_take_profit (Sample.long_position Open) = Some take
    /\ data_since_entry Sample.df (Sample.long_position Open)
       = (pre ++ b :: post)%list
    /\ (forall b', In b' pre ->
                   exit_on_bar Sample.pm
                               (lower (p_side (Sample.long_position Open)))
                               stop take b' = NotExited)
    /\ exit_on_bar Sample.pm (lower (p_side (Sample.long_position Open)))
                   stop take b
       = Exited (96 * (1 - (1 # 1000))) 4 "stop_loss"
    /\ 4%Z = b_timestamp b
    /\ In b Sample.df.
Proof.
  apply (proj2 (proj2 (exit_scan_bar_set Sample.pm (Sample.long_position Open)
                                         Sample.df))).
  reflexivity.
Defined.

(** C1 fails: while the loop is at the bar of time 2, the bars handed over
    reach to time 4, and it is the bar of time 4 that closes the position
    opened at time 1. *)
Lemma exit_scan_looks_ahead :
  let pos := Sample.long_position Open in
  let current := Sample.mkbar 2 100 102 98 101 in
  data_since_entry Sample.df pos
  <> filter (fun b => (b_timestamp b <=? b_timestamp current)%Z)
            (data_since_entry Sample.df pos)
  /\ In (Sample.mkbar 4 97 99 95 96) (data_since_entry Sample.df pos)
  /\ check_exit_conditions Sample.pm pos (data_since_entry Sample.df pos)
     = Exited (96 * (1 - (1 # 1000))) 4 "stop_loss"
  /\ map t_close_time
         (trades
            (db (snd (bar_loop Sample.pm "BTC/USDT" Sample.df
                               (firstn 2 Sample.df)
                               [Sample.near_signal]
                               (reliable Sample.empty)))))
     = [4%Z].
Proof.
  cbv zeta. split; [|split; [|split]].
  - intros H. vm_compute in H. discriminate H.
  - vm_compute. right. right. right. left. reflexivity.
  - reflexivity.
  - vm_compute. reflexivity.
Qed.

(** ** Instances for the limits *)

Lemma open_positions_bounded_witness :
  (Z.of_nat
     (open_count
        (db (snd (backtest_symbol Sample.pm "BTC/USDT" Sample.df
                                  [Sample.near_signal]
                                  (reliable Sample.empty)))))
   <= max_positions Sample.pm)%Z.
Proof.
  apply (open_positions_bounded
           Sample.pm "BTC/USDT" Sample.df
           [Sample.near_signal] Sample.empty).
  simpl. lia.
Defined.

(** C9 fails when the driver fails: six signals wait at the first bar, and
    the query of the sixth limit check, the seventeenth driver call of the
    run, raises.  [get_open_positions] then reports no position, the check
    passes, and the store holds six open positions against a maximum of
    five. *)
Lemma open_count_exceeds_after_fault :
  let w0 := {| db := Sample.empty;
               faults := (repeat false 16 ++ [true])%list;
               journal := [] |} in
  let signals_data :=
    map Sample.signal_at [100; 110; 120; 130; 140; 150] in
  let w := snd (backtest_symbol Sample.pm "BTC/USDT" Sample.df
                                signals_data w0) in
  (Z.of_nat (open_count (db w0)) <= max_positions Sample.pm)%Z
  /\ max_positions Sample.pm = 5%Z
  /\ exists p s',
      In (InsertPosition p, s') (journal w)
      /\ open_count s' = 6%nat
      /\ ~ (Z.of_nat (open_count s') <= max_positions Sample.pm)%Z.
Proof.
  cbv zeta. split; [simpl; lia|]. split; [reflexivity|].
  eexists. eexists.
  split; [vm_compute; do 5 right; left; reflexivity|].
  split; [reflexivity|]. vm_compute. intros H. apply H. reflexivity.
Qed.

Lemma risk_checked_at_open_witness :
  let p := with_id 0 (position_doc
                        "BTC/USDT" "long" 100 1
                        (calculate_position_size Sample.pm "BTC/USDT"
                                                 100 2 10000)
                        2 (Some 96) (Some 106)) in
  exists before,
    positions (inserted Sample.empty p) = (before ++ [p])%list
    /\ Forall (fun q => p_stop_loss q <> None) (filter is_open before)
    /\ risk_sum (filter is_open before)
       + Qabs (p_atr p * stop_loss_atr Sample.pm) * p_qty p
       <= max_risk Sample.pm * capital Sample.pm
    /\ forall stop,
        p_stop_loss p = Some stop ->
        Qabs (p_entry_price p - stop)
        <= Qabs (p_atr p * stop_loss_atr Sample.pm) ->
        risk_sum (open_positions_of (inserted Sample.empty p))
        <= max_risk Sample.pm * capital Sample.pm.
Proof.
  cbv zeta.
  apply (risk_checked_at_open
           Sample.pm "BTC/USDT" Sample.df
           [Sample.near_signal] Sample.empty).
  - constructor; [split; discriminate|constructor].
  - vm_compute. left. reflexivity.
Defined.

(** C2 fails, also for a signal that carries both levels, when its stop is
    farther from the entry than [atr * stop_loss_atr]: with a stop at 50 for
    an entry at 100 the check admits a risk of 100, and the sum over the open
    positions is 1250, above [max_risk * capital] = 500. *)
Lemma stored_stop_exceeds_limit :
  let signals_data := [Sample.far_signal] in
  let w := snd (backtest_symbol Sample.pm "BTC/USDT" Sample.df
                                signals_data (reliable Sample.empty)) in
  Forall carries_levels signals_data
  /\ exists p s',
      In (InsertPosition p, s') (journal w)
      /\ open_positions_of s' = [p]
      /\ p_stop_loss p = Some 50
      /\ Qabs (p_atr p * stop_loss_atr Sample.pm) * p_qty p == 100
      /\ risk_sum (open_positions_of s') == 1250
      /\ ~ risk_sum (open_positions_of s')
           <= max_risk Sample.pm * capital Sample.pm.
Proof.
  cbv zeta. split; [constructor; [split; discriminate|constructor]|].
  eexists. eexists.
  split; [vm_compute; left; reflexivity|].
  split; [reflexivity|]. split; [reflexivity|]. split; [reflexivity|].
  split; [reflexivity|].
  intros H. vm_compute in H. apply H. reflexivity.
Qed.

(* ================================================================== *)
(** * Further properties of the position manager *)

(** ** The limit check *)

(** X1: [check_position_limit] never raises and never writes, whatever the
    driver does; a size it returns is the computed size and is positive. *)
Theorem check_position_limit_reads_only
        (pm : manager) (symbol side : string) (entry_price atr : Q)
        (w : world) :
  exists res,
    fst (check_position_limit pm symbol side entry_price atr w) = Returned res
    /\ db (snd (check_position_limit pm symbol side entry_price atr w)) = db w
    /\ journal (snd (check_position_limit pm symbol side entry_price atr w))
       = journal w
    /\ forall q, res = Some q ->
                 0 < q
                 /\ q = calculate_position_size pm symbol entry_price atr
                                                (capital pm).
Proof.
  destruct (check_position_limit_cases pm symbol side entry_price atr w)
    as (res & w' & E & Hpass & Hdb & Hj & _).
  exists res. rewrite E. simpl. repeat split; auto.
  - apply (Hpass q H).
  - apply (Hpass q H).
Qed.

Lemma add_risks_present (total : Q) (ps : list position) (r : Q) :
  add_risks total ps = Some r ->
  forall p, In p ps -> p_stop_loss p <> None.
Proof.
  revert total. induction ps as [|a ps IH]; intros total H p Hin;
    [contradiction|].
  simpl in H. destruct (p_stop_loss a) as [st|] eqn:Ea; [|discriminate].
  destruct Hin as [<-|Hin]; [congruence|]. eapply IH; eauto.
Qed.

(** X2: one open position whose document lacks the stop-loss makes the limit
    check reject every candidate. *)
Theorem check_position_limit_missing_stop
        (pm : manager) (symbol side : string) (entry_price atr : Q)
        (s : store) (p : position) :
  In p (open_positions_of s) ->
  p_stop_loss p = None ->
  fst (check_position_limit pm symbol side entry_price atr (reliable s))
  = Returned None.
Proof.
  intros Hin Hnone.
  destruct (check_position_limit_cases pm symbol side entry_price atr
                                       (reliable s))
    as (res & w' & E & Hpass & _).
  rewrite E. simpl. destruct res as [q|]; [|reflexivity].
  destruct (Hpass q eq_refl) as (_ & _ & _ & total & Hsum & _).
  simpl in Hsum. exfalso.
  exact (add_risks_present 0 _ total Hsum p Hin Hnone).
Qed.

Lemma check_position_limit_missing_stop_witness :
  fst (check_position_limit
         Sample.pm "BTC/USDT" "long" 100 2
         (reliable {| positions := [Cases.no_stop]; trades := [];
                      next_id := 1 |}))
  = Returned None.
Proof.
  apply (check_position_limit_missing_stop
           Sample.pm "BTC/USDT" "long" 100 2
           {| positions := [Cases.no_stop]; trades := []; next_id := 1 |}
           Cases.no_stop).
  - left. reflexivity.
  - reflexivity.
Defined.

(** X3: when the query for the open positions raises, the limit check
    answers as it would on a store without positions. *)
Theorem check_position_limit_blind
        (pm : manager) (symbol side : string) (entry_price atr : Q)
        (w : world) :
  hd false (faults w) = true ->
  fst (check_position_limit pm symbol side entry_price atr w)
  = fst (check_position_limit pm symbol side entry_price atr
                              (reliable empty_store)).
Proof.
  intros Hf. unfold check_position_limit, try_except, bind.
  destruct (get_open_positions_cases w) as (w1 & -> & _).
  destruct (get_open_positions_cases (reliable empty_store)) as (w2 & -> & _).
  rewrite Hf. simpl.
  destruct (Qle_bool _ 0); [reflexivity|].
  destruct (max_positions pm <=? 0)%Z; [reflexivity|].
  destruct (Qlt_bool _ _); reflexivity.
Qed.

Lemma check_position_limit_blind_witness :
  open_count Cases.full = 5%nat
  /\ fst (check_position_limit
            Sample.pm "BTC/USDT" "long" 150 2
            {| db := Cases.full; faults := [true]; journal := [] |})
     = Returned (Some (calculate_position_size Sample.pm "BTC/USDT" 150 2
                                               10000))
  /\ fst (check_position_limit Sample.pm "BTC/USDT" "long" 150 2
                               (reliable Cases.full))
     = Returned None.
Proof.
  split; [reflexivity|]. split; [|reflexivity].
  rewrite (check_position_limit_blind
             Sample.pm "BTC/USDT" "long" 150 2
             {| db := Cases.full; faults := [true]; journal := [] |}
             eq_refl).
  reflexivity.
Defined.

(** ** The duplicate guard *)

(** X4: without a fault, [has_open_position] answers [True] exactly when
    the store holds an open position with that symbol, that side and an equal
    entry price. *)
Theorem has_open_position_iff
        (symbol side : string) (entry_price : Q) (s : store) :
  exists answer,
    fst (has_open_position symbol side entry_price (reliable s))
    = Returned answer
    /\ (answer = true <->
        exists p, In p (positions s)
                  /\ p_symbol p = symbol
                  /\ p_side p = side
                  /\ p_entry_price p == entry_price
                  /\ p_status p = Open).
Proof.
  destruct (has_open_position_cases symbol side entry_price (reliable s))
    as (w' & E & _).
  rewrite E. simpl. eexists. split; [reflexivity|].
  destruct (List.find (same_open symbol side entry_price) (positions s))
    as [p|] eqn:Hfind.
  - split; [intros _|reflexivity].
    apply find_some in Hfind. destruct Hfind as [Hin Hsame].
    unfold same_open, is_open in Hsame.
    apply andb_true_iff in Hsame. destruct Hsame as [Hsame Hopen].
    apply andb_true_iff in Hsame. destruct Hsame as [Hsame Hprice].
    apply andb_true_iff in Hsame. destruct Hsame as [Hsym Hside].
    exists p. split; [exact Hin|].
    split; [apply String.eqb_eq; exact Hsym|].
    split; [apply String.eqb_eq; exact Hside|].
    split; [apply Qeq_bool_iff; exact Hprice|].
    destruct (p_status p); [reflexivity|discriminate].
  - split; [discriminate|].
    intros (p & Hin & Hsym & Hside & Hprice & Hopen). exfalso.
    pose proof (find_none _ _ Hfind p Hin) as Hno.
    unfold same_open, is_open in Hno.
    rewrite Hsym, Hside, Hopen, !String.eqb_refl in Hno.
    apply Qeq_bool_iff in Hprice. rewrite Hprice in Hno. discriminate.
Qed.

(** ** Opening *)

Lemma find_last_fresh (ps : list position) (p : position) :
  Forall (fun q => (p_id q < p_id p)%nat) ps ->
  List.find (fun x => Nat.eqb (p_id x) (p_id p)) (ps ++ [p])%list = Some p.
Proof.
  induction ps as [|a ps IH]; intros H; simpl.
  - rewrite Nat.eqb_refl. reflexivity.
  - inversion H as [|x l Hlt Hrest]; subst.
    destruct (Nat.eqb (p_id a) (p_id p)) eqn:E.
    + apply Nat.eqb_eq in E. lia.
    + apply IH. exact Hrest.
Qed.

(** X5: on a well-formed store whose driver accepts the insert,
    [open_position] returns an open position under a fresh identifier; a
    lookup by that identifier finds it, the duplicate guard sees it, one more
    position is open and the store is still well formed. *)
Theorem open_position_lookup
        (symbol side : string) (entry_price : Q) (entry_time : Z) (qty atr : Q)
        (stop_loss take_profit : option Q) (w : world) :
  store_wf (db w) ->
  hd false (faults w) = false ->
  let w' := snd (open_position symbol side entry_price entry_time qty atr
                               stop_loss take_profit w) in
  exists p,
    fst (open_position symbol side entry_price entry_time qty atr
                       stop_loss take_profit w) = Returned (Some p)
    /\ p_status p = Open
    /\ ~ In (p_id p) (map p_id (positions (db w)))
    /\ List.find (fun x => Nat.eqb (p_id x) (p_id p)) (positions (db w'))
       = Some p
    /\ fst (has_open_position symbol side entry_price (reliable (db w')))
       = Returned true
    /\ open_count (db w') = S (open_count (db w))
    /\ store_wf (db w').
Proof.
  intros (Hnd & Hlt) Hf. cbv zeta.
  destruct (open_position_cases symbol side entry_price entry_time qty atr
                                stop_loss take_profit w) as [[Hh _]|[_ E]];
    [congruence|].
  rewrite E. cbn [fst snd db].
  set (p := with_id (next_id (db w))
                    (position_doc symbol side entry_price entry_time qty atr
                                  stop_loss take_profit)).
  exists p. split; [reflexivity|]. split; [reflexivity|].
  assert (Hfresh : ~ In (p_id p) (map p_id (positions (db w)))).
  { intros Hin. apply in_map_iff in Hin. destruct Hin as (y & Hy & Hiny).
    rewrite Forall_forall in Hlt. specialize (Hlt y Hiny).
    simpl in Hy. lia. }
  split; [exact Hfresh|]. split.
  { apply find_last_fresh. exact Hlt. }
  split.
  { destruct (has_open_position_cases
                symbol side entry_price
                (reliable {| positions := (positions (db w) ++ [p])%list;
                             trades := trades (db w);
                             next_id := S (next_id (db w)) |}))
      as (w2 & E2 & _).
    rewrite E2. simpl.
    destruct (List.find (same_open symbol side entry_price)
                        (positions (db w) ++ [p])%list) eqn:Hfind;
      [reflexivity|].
    exfalso.
    assert (Hin : In p (positions (db w) ++ [p])%list).
    { apply in_or_app. right. left. reflexivity. }
    pose proof (find_none _ _ Hfind p Hin) as Hno.
    unfold same_open, is_open in Hno. simpl in Hno.
    rewrite !String.eqb_refl, Qeq_bool_refl in Hno. discriminate. }
  split.
  { apply (open_count_inserted (db w) p). reflexivity. }
  split; cbn [positions next_id].
  - rewrite map_app. simpl. apply NoDup_rev in Hnd.
    rewrite <- (rev_involutive (map p_id (positions (db w)) ++ _)).
    apply NoDup_rev. rewrite rev_app_distr. simpl.
    constructor; [|exact Hnd].
    intros Hin. apply in_rev in Hin. exact (Hfresh Hin).
  - apply Forall_app. split.
    + eapply Forall_impl; [|exact Hlt]. simpl. intros; lia.
    + constructor; [simpl; lia|constructor].
Qed.

Lemma open_position_lookup_witness :
  exists p,
    fst (open_position "ETH/USDT" "short" 50 7 3 1 (Some 52) None
                       (reliable (Sample.one Open))) = Returned (Some p)
    /\ p_id p = 1%nat
    /\ p_take_profit p = Some 0.
Proof.
  destruct (open_position_lookup
              "ETH/USDT" "short" 50 7 3 1 (Some 52) None
              (reliable (Sample.one Open))) as (p & E & _).
  - split.
    + repeat constructor. intros [].
    + repeat constructor.
  - reflexivity.
  - exists p. split; [exact E|]. simpl in E. injection E as <-.
    split; reflexivity.
Defined.

(** ** Closing *)

Lemma find_set_status (id : nat) (st : status) (ps : list position)
      (p : position) :
  List.find (fun x => Nat.eqb (p_id x) id) ps = Some p ->
  List.find (fun x => Nat.eqb (p_id x) id) (set_status id st ps)
  = Some (with_status st p).
Proof.
  induction ps as [|a ps IH]; intros H; [discriminate|].
  simpl in *. destruct (Nat.eqb (p_id a) id) eqn:E.
  - injection H as <-. simpl. rewrite E. reflexivity.
  - simpl. rewrite E. apply IH. exact H.
Qed.

Lemma open_count_closed_one (id : nat) (ps : list position) (p : position) :
  List.find (fun x => Nat.eqb (p_id x) id) ps = Some p ->
  p_status p = Open ->
  S (List.length (filter is_open (set_status id Closed ps)))
  = List.length (filter is_open ps).
Proof.
  induction ps as [|a ps IH]; intros H Hopen; [discriminate|].
  simpl in *. destruct (Nat.eqb (p_id a) id) eqn:E.
  - injection H as ->. simpl. unfold is_open at 2. rewrite Hopen. reflexivity.
  - simpl. destruct (is_open a); simpl; rewrite <- (IH H Hopen); reflexivity.
Qed.

(** X6: when the insertion of the trade raises after the status update,
    [close_position] returns nothing, the position is closed all the same and
    the ledger has no trade for it. *)
Theorem close_position_trade_lost
        (pm : manager) (position_id : nat) (exit_price : Q) (exit_time : Z)
        (reason : string) (w : world) (p : position) :
  List.find (fun x => Nat.eqb (p_id x) position_id) (positions (db w))
  = Some p ->
  ~ leverage pm == 0 ->
  hd false (faults w) = false ->
  hd false (tl (faults w)) = false ->
  hd false (tl (tl (faults w))) = true ->
  let r := close_position pm position_id exit_price exit_time reason w in
  fst r = Returned None
  /\ List.find (fun x => Nat.eqb (p_id x) position_id)
               (positions (db (snd r)))
     = Some (with_status Closed p)
  /\ trades (db (snd r)) = trades (db w).
Proof.
  intros Hfind Hlev H1 H2 H3. cbv zeta.
  pose proof (close_position_cases pm position_id exit_price exit_time
                                   reason w) as C.
  inversion C as [w0 Hh|w0 ? Hn|p' w0 ? ? Hz|p' w0 ? ? ? Hh
                  |p' w0 ? ? ? ? ? Hdb|p' w0 s1 ? ? ? ? Hh];
    try congruence; try contradiction.
  split; [reflexivity|]. rewrite Hdb. simpl.
  split; [|reflexivity]. apply find_set_status. exact Hfind.
Qed.

Lemma close_position_trade_lost_witness :
  let r := close_position Sample.pm 0 103 4 "take_profit"
                          {| db := Sample.one Open;
                             faults := [false; false; true];
                             journal := [] |} in
  fst r = Returned None
  /\ List.find (fun x => Nat.eqb (p_id x) 0) (positions (db (snd r)))
     = Some (with_status Closed (Sample.long_position Open))
  /\ trades (db (snd r)) = trades (Sample.one Open).
Proof.
  apply (close_position_trade_lost
           Sample.pm 0 103 4 "take_profit"
           {| db := Sample.one Open; faults := [false; false; true];
              journal := [] |}
           (Sample.long_position Open)); try reflexivity.
  discriminate.
Defined.

(** X7: a successful [close_position] on an open position closes that
    document and no other: one position fewer is open, the identifiers are
    the same, every document with another identifier is still there, and the
    lookup now finds the closed document. *)
Theorem close_position_closes_one
        (pm : manager) (position_id : nat) (exit_price : Q) (exit_time : Z)
        (reason : string) (w : world) (tr : trade) (p : position) :
  fst (close_position pm position_id exit_price exit_time reason w)
  = Returned (Some tr) ->
  List.find (fun x => Nat.eqb (p_id x) position_id) (positions (db w))
  = Some p ->
  p_status p = Open ->
  let w' := snd (close_position pm position_id exit_price exit_time reason w)
  in
  S (open_count (db w')) = open_count (db w)
  /\ map p_id (positions (db w')) = map p_id (positions (db w))
  /\ (forall q, In q (positions (db w)) -> p_id q <> position_id ->
                In q (positions (db w')))
  /\ List.find (fun x => Nat.eqb (p_id x) position_id) (positions (db w'))
     = Some (with_status Closed p).
Proof.
  intros H Hfind Hopen. cbv zeta.
  pose proof (close_position_cases pm position_id exit_price exit_time
                                   reason w) as C.
  rewrite H in C.
  inversion C as [| | | | |p' w0 s1 ? ? ? ? ? Hs1 Hdb]. subst s1.
  rewrite Hdb. unfold open_count, open_positions_of. simpl.
  split; [apply (open_count_closed_one _ _ p Hfind Hopen)|].
  split; [apply set_status_ids|].
  split; [intros q Hq Hid; apply set_status_keeps; assumption|].
  apply find_set_status. exact Hfind.
Qed.

Lemma close_position_closes_one_witness :
  S (open_count (db (snd (close_position Sample.pm 0 103 4 "take_profit"
                                         (reliable (Sample.one Open))))))
  = open_count (Sample.one Open).
Proof.
  apply (close_position_closes_one
           Sample.pm 0 103 4 "take_profit" (reliable (Sample.one Open))
           (trade_doc Sample.pm (Sample.long_position Open) 103 4
                      "take_profit")
           (Sample.long_position Open)); reflexivity.
Defined.

(** ** Profit and loss *)

(** X8: with a size and a fee rate that are not negative and a positive
    leverage, the fee of a trade is not negative, so the net result is never
    above the gross result. *)
Theorem fee_not_negative
        (pm : manager) (p : position) (exit_price : Q) (exit_time : Z)
        (reason : string) :
  0 <= p_qty p ->
  0 <= fee_rate pm ->
  0 < leverage pm ->
  let t := trade_doc pm p exit_price exit_time reason in
  0 <= t_fee t /\ t_pnl t <= t_gross_pnl t.
Proof.
  intros Hq Hf Hl. cbv zeta. simpl.
  assert (Hfee : 0 <= (Qabs (p_entry_price p) + Qabs exit_price) * p_qty p
                      * fee_rate pm / leverage pm).
  { apply Qle_shift_div_l; [exact Hl|]. rewrite Qmult_0_l.
    apply Qmult_le_0_compat; [|exact Hf].
    apply Qmult_le_0_compat; [|exact Hq].
    pose proof (Qabs_nonneg (p_entry_price p)).
    pose proof (Qabs_nonneg exit_price). lra. }
  split; [exact Hfee|]. lra.
Qed.

Lemma fee_not_negative_witness :
  let t := trade_doc Sample.pm (Sample.long_position Open) 103 4 "take_profit"
  in
  0 <= t_fee t /\ t_pnl t <= t_gross_pnl t.
Proof.
  apply (fee_not_negative Sample.pm (Sample.long_position Open) 103 4
                          "take_profit"); discriminate || reflexivity.
Defined.

(** X9: a long and a short position with the same entry price and size,
    closed at the same price, have gross results that cancel and pay the same
    fee: together they lose twice the fee. *)
Theorem long_and_short_cancel
        (pm : manager) (p1 p2 : position) (exit_price : Q) (exit_time : Z)
        (reason : string) :
  p_side p1 = "long" ->
  p_side p2 = "short" ->
  p_entry_price p2 = p_entry_price p1 ->
  p_qty p2 = p_qty p1 ->
  let t1 := trade_doc pm p1 exit_price exit_time reason in
  let t2 := trade_doc pm p2 exit_price exit_time reason in
  t_gross_pnl t1 + t_gross_pnl t2 == 0
  /\ t_fee t2 = t_fee t1
  /\ t_pnl t1 + t_pnl t2 == - (2 * t_fee t1).
Proof.
  intros H1 H2 He Hq. cbv zeta. simpl. unfold gross_pnl_of.
  rewrite H1, H2, He, Hq. simpl. repeat split; ring.
Qed.

Lemma long_and_short_cancel_witness :
  let t1 := trade_doc Sample.pm (Sample.long_position Open) 103 4 "x" in
  let t2 := trade_doc Sample.pm
                      {| p_id := 1; p_symbol := "BTC/USDT"; p_side := "short";
                         p_qty := 25; p_entry_price := 100; p_atr := 2;
                         p_stop_loss := Some 104; p_take_profit := Some 94;
                         p_open_time := 1; p_status := Open |}
                      103 4 "x" in
  t_gross_pnl t1 + t_gross_pnl t2 == 0
  /\ t_fee t2 = t_fee t1
  /\ t_pnl t1 + t_pnl t2 == - (2 * t_fee t1).
Proof.
  apply long_and_short_cancel; reflexivity.
Defined.

(** X10: the side is compared without regard to case when exits are
    evaluated and with regard to case when the result is computed: a position
    whose side is "long" in another spelling leaves by the rules of a long
    position and is booked with the sign of a short one. *)
Theorem side_spelling_mismatch
        (pm : manager) (p : position) (stop take : Q) (b : bar)
        (exit_price : Q) (exit_time : Z) (reason : string) :
  lower (p_side p) = "long" ->
  p_side p <> "long" ->
  p_stop_loss p = Some stop ->
  p_take_profit p = Some take ->
  (p_open_time p <= b_timestamp b)%Z ->
  b_low b <= stop ->
  check_exit_conditions pm p [b]
  = Exited (stop * (1 - slippage pm)) (b_timestamp b) "stop_loss"
  /\ t_gross_pnl (trade_doc pm p exit_price exit_time reason)
     = (p_entry_price p - exit_price) * p_qty p.
Proof.
  intros Hlow Hne Hs Ht Htime Hstop. split.
  - unfold check_exit_conditions, since. simpl.
    apply Z.leb_le in Htime. rewrite Htime. simpl.
    rewrite Hs, Ht, Hlow. unfold exit_on_bar. simpl.
    apply Qle_bool_iff in Hstop. rewrite Hstop. reflexivity.
  - simpl. unfold gross_pnl_of.
    apply String.eqb_neq in Hne. rewrite Hne. reflexivity.
Qed.

Lemma side_spelling_mismatch_witness :
  check_exit_conditions Sample.pm Cases.capital_long
                        [Sample.mkbar 4 97 99 95 96]
  = Exited (96 * (1 - slippage Sample.pm)) 4 "stop_loss"
  /\ t_gross_pnl (trade_doc Sample.pm Cases.capital_long (95904 # 1000) 4
                            "stop_loss")
     = (100 - (95904 # 1000)) * 25.
Proof.
  apply (side_spelling_mismatch
           Sample.pm Cases.capital_long 96 106 (Sample.mkbar 4 97 99 95 96)
           (95904 # 1000) 4 "stop_loss");
    reflexivity || discriminate.
Defined.

(** ** Exit evaluation *)

Lemma exit_on_bar_facts (pm : manager) (side : string) (stop take : Q)
      (b : bar) (x : Q) (t : Z) (r : string) :
  exit_on_bar pm side stop take b = Exited x t r ->
  (r = "stop_loss" \/ r = "take_profit")
  /\ (side = "long" \/ side = "short").
Proof.
  unfold exit_on_bar.
  destruct (String.eqb side "long") eqn:E1;
    [|destruct (String.eqb side "short") eqn:E2];
    repeat match goal with
           | |- context [if ?c then _ else _] => destruct c
           end;
    intros H; inversion H; subst; split; auto;
    solve [ left; apply String.eqb_eq; assumption
          | right; apply String.eqb_eq; assumption ].
Qed.

(** X11: what [check_exit_conditions] can return: the reason is "stop_loss"
    or "take_profit", the exit time is the time stamp of a bar of the frame
    and is not before the open time, both levels are present and the side is
    "long" or "short" up to case. *)
Theorem exit_result_facts
        (pm : manager) (pos : position) (df : list bar)
        (x : Q) (t : Z) (r : string) :
  check_exit_conditions pm pos df = Exited x t r ->
  (r = "stop_loss" \/ r = "take_profit")
  /\ (p_open_time pos <= t)%Z
  /\ (exists b, In b df /\ t = b_timestamp b)
  /\ p_stop_loss pos <> None
  /\ p_take_profit pos <> None
  /\ (lower (p_side pos) = "long" \/ lower (p_side pos) = "short").
Proof.
  intros H. unfold check_exit_conditions in H.
  destruct (scan_bars_first pm pos _ x t r H)
    as (stop & take & pre & b & post & Hs & Ht & Hrows & _ & Hb).
  destruct (exit_on_bar_facts _ _ _ _ _ _ _ _ Hb) as [Hr Hside].
  pose proof (exit_on_bar_time _ _ _ _ _ _ _ _ Hb) as Htime.
  assert (Hin : In b (since (p_open_time pos) df)).
  { rewrite Hrows. apply in_or_app. right. left. reflexivity. }
  unfold since in Hin. apply filter_In in Hin. destruct Hin as [Hin Hle].
  apply Z.leb_le in Hle.
  split; [exact Hr|]. split; [subst t; exact Hle|].
  split; [exists b; split; assumption|].
  split; [congruence|]. split; [congruence|exact Hside].
Qed.

Lemma exit_result_facts_witness :
  ("stop_loss" = "stop_loss" \/ "stop_loss" = "take_profit")
  /\ (p_open_time (Sample.long_position Open) <= 4)%Z.
Proof.
  destruct (exit_result_facts
              Sample.pm (Sample.long_position Open) Sample.df
              (96 * (1 - (1 # 1000))) 4 "stop_loss" eq_refl)
    as (H1 & H2 & _).
  split; assumption.
Defined.

Lemma scan_bars_app (pm : manager) (pos : position) (l m : list bar) :
  scan_bars pm pos (l ++ m)%list
  = match scan_bars pm pos l with
    | Exited x t r => Exited x t r
    | NotExited => scan_bars pm pos m
    end.
Proof.
  induction l as [|a l IH]; simpl; [reflexivity|].
  destruct (p_stop_loss pos) as [stop|]; [|exact IH].
  destruct (p_take_profit pos) as [take|]; [|exact IH].
  destruct (exit_on_bar pm (lower (p_side pos)) stop take a);
    [exact IH|reflexivity].
Qed.

(** X12: the scan is first-touch and compositional: on a frame followed by
    further bars the result is the exit found in the frame if there is one,
    and otherwise the result on the further bars; bars that are added later
    never change an exit that was found. *)
Theorem exit_scan_appended
        (pm : manager) (pos : position) (df more : list bar) :
  check_exit_conditions pm pos (df ++ more)%list
  = match check_exit_conditions pm pos df with
    | Exited x t r => Exited x t r
    | NotExited => check_exit_conditions pm pos more
    end.
Proof.
  unfold check_exit_conditions, since. rewrite filter_app.
  apply scan_bars_app.
Qed.

(** X13: a position whose side is neither "long" nor "short" (up to case)
    never leaves through [check_exit_conditions]. *)
Theorem unknown_side_never_exits
        (pm : manager) (pos : position) (df : list bar) :
  lower (p_side pos) <> "long" ->
  lower (p_side pos) <> "short" ->
  check_exit_conditions pm pos df = NotExited.
Proof.
  intros H1 H2. unfold check_exit_conditions.
  induction (since (p_open_time pos) df) as [|b rows IH]; [reflexivity|].
  simpl. destruct (p_stop_loss pos) as [stop|]; [|exact IH].
  destruct (p_take_profit pos) as [take|]; [|exact IH].
  unfold exit_on_bar.
  apply String.eqb_neq in H1. apply String.eqb_neq in H2.
  rewrite H1, H2. exact IH.
Qed.

Lemma unknown_side_never_exits_witness :
  check_exit_conditions
    Sample.pm
    {| p_id := 0; p_symbol := "BTC/USDT"; p_side := "buy"; p_qty := 25;
       p_entry_price := 100; p_atr := 2; p_stop_loss := Some 96;
       p_take_profit := Some 106; p_open_time := 1; p_status := Open |}
    Sample.df
  = NotExited.
Proof.
  apply unknown_side_never_exits; discriminate.
Defined.

(* ================================================================== *)
(** * Further properties of the simulation loop *)

(** ** The signal cursor *)

Lemma admit_signal_returns_tt (pm : manager) (symbol : string) (b : bar)
      (sg : signal) (w : world) :
  fst (admit_signal pm symbol b sg w) = Returned tt.
Proof.
  destruct (returns_admit pm symbol b sg w) as [[] H]. exact H.
Qed.

(** Whatever the driver does, the entry phase of a bar consumes the longest
    prefix of the signals that are not later than the bar and hands back the
    rest. *)
Lemma entry_phase_cursor
        (pm : manager) (symbol : string) (b : bar) (sigs : list signal)
        (w : world) :
  exists consumed left,
    sigs = (consumed ++ left)%list
    /\ fst (entry_phase pm symbol b sigs w) = Returned left
    /\ Forall (fun sg => (s_timestamp sg <= b_timestamp b)%Z) consumed
    /\ match left with
       | [] => True
       | sg :: _ => (b_timestamp b < s_timestamp sg)%Z
       end.
Proof.
  revert w. induction sigs as [|sg sigs IH]; intros w.
  - exists [], []. repeat split; constructor.
  - simpl. destruct (s_timestamp sg <=? b_timestamp b)%Z eqn:E.
    + unfold bind. pose proof (admit_signal_returns_tt pm symbol b sg w) as Ha.
      destruct (admit_signal pm symbol b sg w) as [r w1]. simpl in Ha.
      subst r. destruct (IH w1) as (consumed & left & Hs & Hr & Hc & Hl).
      exists (sg :: consumed), left. split; [simpl; congruence|].
      split; [exact Hr|]. split; [|exact Hl].
      constructor; [apply Z.leb_le; exact E|exact Hc].
    + exists [], (sg :: sigs). split; [reflexivity|].
      split; [reflexivity|]. split; [constructor|].
      apply Z.leb_gt. exact E.
Qed.

Lemma returns_exit_phase (pm : manager) (df : list bar) :
  returns (exit_phase pm df).
Proof.
  unfold exit_phase. apply returns_bind; [apply returns_get|].
  intros ops. apply returns_for_each. intros pos. unfold exit_position.
  destruct (check_exit_conditions pm pos (data_since_entry df pos)).
  - apply returns_ret.
  - apply returns_bind; [apply returns_close|intros; apply returns_ret].
Qed.

(** X14: whatever the driver does, the loop over the bars consumes a prefix
    of the signals, in their order, and returns the rest; a consumed signal
    is never looked at again; every consumed signal is not later than some bar of the
    loop, and the first signal that is left, if any, is later than the last
    bar. *)
Theorem bar_loop_cursor
        (pm : manager) (symbol : string) (df rows : list bar)
        (sigs : list signal) (w : world) :
  exists consumed left,
    sigs = (consumed ++ left)%list
    /\ fst (bar_loop pm symbol df rows sigs w) = Returned left
    /\ Forall (fun sg => exists b, In b rows
                                   /\ (s_timestamp sg <= b_timestamp b)%Z)
              consumed
    /\ forall last_bar,
        iloc_last rows = Some last_bar ->
        match left with
        | [] => True
        | sg :: _ => (b_timestamp last_bar < s_timestamp sg)%Z
        end.
Proof.
  revert sigs w. induction rows as [|b rows IH]; intros sigs w.
  - exists [], sigs. split; [reflexivity|]. split; [reflexivity|].
    split; [constructor|discriminate].
  - simpl bar_loop. unfold bind.
    destruct (returns_exit_phase pm df w) as [[] He].
    destruct (exit_phase pm df w) as [r1 w1]. simpl in He. subst r1.
    destruct (entry_phase_cursor pm symbol b sigs w1)
      as (c1 & l1 & Hs1 & Hr1 & Hc1 & Hl1).
    destruct (entry_phase pm symbol b sigs w1) as [r2 w2]. simpl in Hr1.
    subst r2.
    destruct (IH l1 w2) as (c2 & l2 & Hs2 & Hr2 & Hc2 & Hl2).
    exists (c1 ++ c2)%list, l2.
    split; [rewrite <- app_assoc; congruence|]. split; [exact Hr2|].
    split.
    + apply Forall_app. split.
      * eapply Forall_impl; [|exact Hc1]. intros sg Hsg.
        exists b. split; [left; reflexivity|exact Hsg].
      * eapply Forall_impl; [|exact Hc2]. intros sg (b' & Hin & Hle).
        exists b'. split; [right; exact Hin|exact Hle].
    + intros last_bar Hlast. destruct rows as [|b' rows'].
      * simpl in Hlast. injection Hlast as <-.
        simpl in Hr2. injection Hr2 as <-. exact Hl1.
      * apply Hl2. exact Hlast.
Qed.

(** ** The forced close *)

(** X15: the forced close reads the result of [close_position] without
    testing it.  When the lookup of the first open position raises,
    [close_position] returns [None] and the forced close raises: the run of
    the symbol ends with an exception, nothing has been written and the
    positions stay open. *)
Theorem forced_close_lookup_fault
        (pm : manager) (df : list bar) (w : world) :
  hd false (faults w) = false ->
  hd false (tl (faults w)) = true ->
  open_positions_of (db w) <> [] ->
  df <> [] ->
  fst (force_close pm df w) = Raised
  /\ db (snd (force_close pm df w)) = db w
  /\ journal (snd (force_close pm df w)) = journal w.
Proof.
  intros H0 H1 Hopen Hdf. unfold force_close, bind.
  destruct (get_open_positions_cases w) as (w1 & E & Hdb & Hj & Hfl).
  rewrite E, H0.
  destruct (open_positions_of (db w)) as [|p l]; [congruence|].
  destruct (iloc_last_nonempty df Hdf) as [last_bar ->].
  simpl. unfold bind, force_close_position, bind.
  pose proof (close_position_cases
                pm (p_id p) (b_close last_bar) (b_timestamp last_bar)
                "End of Backtest" w1) as C.
  assert (Hw1 : hd false (faults w1) = true) by (rewrite Hfl; exact H1).
  inversion C as [w' ? Hdb' Hj' ? Hres Hw'| | | | |]; try congruence.
  destruct (close_position pm (p_id p) (b_close last_bar)
                           (b_timestamp last_bar) "End of Backtest" w1)
    as [r w2].
  simpl in *. subst r w'. simpl.
  split; [reflexivity|]. split; congruence.
Qed.

Lemma forced_close_lookup_fault_witness :
  let w := {| db := Sample.one Open; faults := [false; true];
              journal := [] |} in
  fst (force_close Sample.pm Sample.df w) = Raised
  /\ db (snd (force_close Sample.pm Sample.df w)) = db w
  /\ journal (snd (force_close Sample.pm Sample.df w)) = journal w.
Proof.
  cbv zeta.
  apply forced_close_lookup_fault; reflexivity || discriminate.
Defined.

(** ** What a replay writes *)

(** What [admit_signal] does to the store under any schedule of faults:
    nothing, or the insertion of the position the limit check let through. *)
Lemma admit_signal_cases (pm : manager) (symbol : string) (b : bar)
      (sg : signal) (w : world) :
  exists w',
    admit_signal pm symbol b sg w = (Returned tt, w')
    /\ ((db w' = db w /\ journal w' = journal w)
        \/ exists atr q seen,
            b_atr_14 b = Some atr
            /\ limit_passed pm symbol (s_signal_type sg) (s_value sg) atr
                            seen q
            /\ let p := with_id (next_id (db w))
                                (position_doc symbol (s_signal_type sg)
                                              (s_value sg) (b_timestamp b) q
                                              atr (s_stop_loss sg)
                                              (s_take_profit sg)) in
               db w' = inserted (db w) p
               /\ journal w'
                  = (journal w ++ [(InsertPosition p, inserted (db w) p)])%list).
Proof.
  unfold admit_signal, bind, ret.
  destruct (b_atr_14 b) as [atr|] eqn:Hatr.
  2:{ exists w. split; [reflexivity|]. left. split; reflexivity. }
  destruct (check_position_limit_cases
              pm symbol (s_signal_type sg) (s_value sg) atr w)
    as (res & w1 & E & Hpass & Hdb1 & Hj1 & _).
  rewrite E. destruct res as [q|].
  2:{ exists w1. split; [reflexivity|]. left. split; assumption. }
  specialize (Hpass q eq_refl).
  rewrite (limit_passed_truthy _ _ _ _ _ _ _ Hpass).
  destruct (has_open_position_cases symbol (s_signal_type sg) (s_value sg) w1)
    as (w2 & E2 & Hdb2 & Hj2 & _).
  rewrite E2. clear E2.
  match goal with
  | |- context [(if ?c then _ else _) w2] => destruct c
  end.
  { exists w2. split; [reflexivity|]. left. split; congruence. }
  destruct (open_position_cases
              symbol (s_signal_type sg) (s_value sg) (b_timestamp b) q atr
              (s_stop_loss sg) (s_take_profit sg) w2) as [[_ E3]|[_ E3]];
    rewrite E3; eexists; (split; [reflexivity|]); simpl.
  - left. split; congruence.
  - right. exists atr, q. eexists. split; [reflexivity|].
    split; [exact Hpass|]. cbv zeta. unfold inserted.
    rewrite Hj2, Hj1, Hdb2, Hdb1. split; reflexivity.
Qed.

Lemma extends_refl (s : store) : extends s s.
Proof.
  repeat split.
  - exists []. rewrite app_nil_r. reflexivity.
  - exists []. rewrite app_nil_r. reflexivity.
  - lia.
  - apply frozen_refl.
Qed.

Lemma extends_trans (a b c : store) : extends a b -> extends b c -> extends a c.
Proof.
  intros ((m1 & H1) & (t1 & H2) & H3 & H4) ((m2 & H5) & (t2 & H6) & H7 & H8).
  repeat split.
  - exists (m1 ++ m2)%list. rewrite H5, H1, app_assoc. reflexivity.
  - exists (t1 ++ t2)%list. rewrite H6, H2, app_assoc. reflexivity.
  - lia.
  - eapply frozen_trans; eassumption.
Qed.

Lemma extends_closed (s : store) (id : nat) (more : list trade) :
  extends s {| positions := set_status id Closed (positions s);
               trades := (trades s ++ more)%list;
               next_id := next_id s |}.
Proof.
  repeat split; simpl.
  - exists []. rewrite app_nil_r. apply set_status_ids.
  - exists more. reflexivity.
  - lia.
  - apply frozen_set_status.
Qed.

Lemma extends_inserted (s : store) (p : position) : extends s (inserted s p).
Proof.
  repeat split; simpl.
  - exists [p_id p]. rewrite map_app. reflexivity.
  - exists []. rewrite app_nil_r. reflexivity.
  - lia.
  - apply frozen_app.
Qed.

Lemma extends_same (s s' : store) : s' = s -> extends s s'.
Proof. intros ->. apply extends_refl. Qed.

(** X16: under any schedule of faults the replay of a symbol only adds to
    the store: the identifiers of the positions and the trades of the ledger
    are extended at the end, nothing is deleted, the next identifier does not
    go back and a closed position document is never changed. *)
Theorem replay_extends_store
        (pm : manager) (symbol : string) (df : list bar)
        (signals_data : list signal) (w : world) :
  extends (db w) (db (snd (backtest_symbol pm symbol df signals_data w))).
Proof.
  apply (backtest_symbol_preserves (fun w' => extends (db w) (db w'))).
  - intros w0 H. destruct (get_open_positions_cases w0) as (w1 & E & Hdb & _).
    rewrite E. simpl. rewrite Hdb. exact H.
  - intros position_id exit_price exit_time reason w0 H.
    eapply extends_trans; [exact H|].
    pose proof (close_position_cases pm position_id exit_price exit_time
                                     reason w0) as C.
    inversion C as [w' ? Hdb|w' ? ? Hdb|p w' ? ? ? Hdb|p w' ? ? ? ? Hdb
                    |p w' ? ? ? ? ? Hdb|p w' s1 ? ? ? ? ? Hs1 Hdb];
      rewrite Hdb; subst;
      first [ apply extends_refl
            | apply (extends_closed (db w0) position_id [])
            | idtac ].
    + pose proof (extends_closed (db w0) position_id []) as X.
      rewrite app_nil_r in X. exact X.
    + apply (extends_closed (db w0) position_id).
  - intros b sg w0 H. eapply extends_trans; [exact H|].
    destruct (admit_signal_cases pm symbol b sg w0)
      as (w' & E & [[Hdb _]|(atr & q & seen & _ & _ & Hdb & _)]);
      rewrite E; simpl; rewrite Hdb.
    + apply extends_refl.
    + apply extends_inserted.
  - apply extends_refl.
Qed.

Lemma iloc_last_In (df : list bar) (b : bar) :
  iloc_last df = Some b -> In b df.
Proof.
  induction df as [|a df IH]; [discriminate|].
  destruct df as [|a' df'].
  - simpl. intros H. injection H as ->. left. reflexivity.
  - intros H. right. apply IH. exact H.
Qed.

Lemma exit_reason_and_bar (pm : manager) (pos : position) (df : list bar)
      (x : Q) (t : Z) (r : string) :
  check_exit_conditions pm pos (data_since_entry df pos) = Exited x t r ->
  (r = "stop_loss" \/ r = "take_profit")
  /\ exists b, In b df /\ t = b_timestamp b.
Proof.
  intros H. unfold check_exit_conditions in H.
  destruct (scan_bars_first pm pos _ x t r H)
    as (stop & take & pre & b & post & _ & _ & Hrows & _ & Hb).
  split; [apply (exit_on_bar_facts _ _ _ _ _ _ _ _ Hb)|].
  exists b. split; [|eapply exit_on_bar_time; exact Hb].
  assert (Hin : In b (since (p_open_time pos) (data_since_entry df pos))).
  { rewrite Hrows. apply in_or_app. right. left. reflexivity. }
  unfold data_since_entry, since in Hin.
  apply filter_In in Hin. destruct Hin as [Hin _].
  apply filter_In in Hin. apply Hin.
Qed.

Section Writes.
Variable pm : manager.
Variable symbol : string.
Variable df : list bar.

Lemma replay_journal_get : preserves (replay_journal symbol df) get_open_positions.
Proof.
  intros w H. destruct (get_open_positions_cases w) as (w1 & E & _ & Hj & _).
  rewrite E. unfold replay_journal in *. simpl. rewrite Hj. exact H.
Qed.

Lemma replay_journal_close (position_id : nat) (exit_price : Q)
      (exit_time : Z) (reason : string) :
  (reason = "stop_loss" \/ reason = "take_profit"
   \/ reason = "End of Backtest") ->
  (exists b, In b df /\ exit_time = b_timestamp b) ->
  preserves (replay_journal symbol df)
            (close_position pm position_id exit_price exit_time reason).
Proof.
  intros Hr Ht w H. unfold replay_journal in *.
  pose proof (close_position_cases pm position_id exit_price exit_time
                                   reason w) as C.
  inversion C as [w' ? Hdb Hj|w' ? ? Hdb Hj|p w' ? ? ? Hdb Hj
                  |p w' ? ? ? ? Hdb Hj|p w' ? ? ? ? ? Hdb Hj
                  |p w' s1 ? ? ? ? ? Hs1 Hdb Hj];
    rewrite Hj; try exact H.
  - apply Forall_app. split; [exact H|]. repeat constructor.
  - apply Forall_app. split; [exact H|].
    constructor; [exact I|]. constructor; [|constructor].
    split; [exact Hr|]. destruct Ht as (b & Hin & ->).
    exists b. split; [exact Hin|reflexivity].
Qed.

Lemma replay_journal_admit (b : bar) (sg : signal) :
  In b df ->
  preserves (replay_journal symbol df) (admit_signal pm symbol b sg).
Proof.
  intros Hb w H. unfold replay_journal in *.
  destruct (admit_signal_cases pm symbol b sg w)
    as (w' & E & [[_ Hj]|(atr & q & seen & Hatr & Hpass & _ & Hj)]);
    rewrite E; simpl; rewrite Hj; [exact H|].
  apply Forall_app. split; [exact H|]. constructor; [|constructor].
  destruct Hpass as (_ & Hq & _).
  split; [reflexivity|]. split; [reflexivity|]. split; [exact Hq|].
  split; [discriminate|]. split; [discriminate|].
  exists b. split; [exact Hb|]. split; [reflexivity|exact Hatr].
Qed.

Lemma replay_journal_exit_phase :
  preserves (replay_journal symbol df) (exit_phase pm df).
Proof.
  unfold exit_phase. apply preserves_bind; [apply replay_journal_get|].
  intros ops. apply preserves_for_each. intros pos. unfold exit_position.
  destruct (check_exit_conditions pm pos (data_since_entry df pos))
    as [|x t r] eqn:E.
  - apply preserves_ret.
  - apply preserves_bind; [|intros; apply preserves_ret].
    destruct (exit_reason_and_bar pm pos df x t r E)
      as (Hr & b & Hin & Ht).
    apply replay_journal_close.
    + destruct Hr as [Hr|Hr]; auto.
    + exists b. split; assumption.
Qed.

Lemma replay_journal_entry_phase (b : bar) (sigs : list signal) :
  In b df ->
  preserves (replay_journal symbol df) (entry_phase pm symbol b sigs).
Proof.
  intros Hb. induction sigs as [|sg sigs IH]; simpl.
  - apply preserves_ret.
  - destruct (s_timestamp sg <=? b_timestamp b)%Z.
    + apply preserves_bind; [apply replay_journal_admit; exact Hb|].
      intros _. exact IH.
    + apply preserves_ret.
Qed.

Lemma replay_journal_bar_loop (rows : list bar) (sigs : list signal) :
  incl rows df ->
  preserves (replay_journal symbol df) (bar_loop pm symbol df rows sigs).
Proof.
  revert sigs. induction rows as [|b rows IH]; intros sigs Hincl; simpl.
  - apply preserves_ret.
  - apply preserves_bind; [apply replay_journal_exit_phase|]. intros _.
    apply preserves_bind.
    + apply replay_journal_entry_phase. apply Hincl. left. reflexivity.
    + intros left. apply IH. intros x Hx. apply Hincl. right. exact Hx.
Qed.

Lemma replay_journal_force_close :
  preserves (replay_journal symbol df) (force_close pm df).
Proof.
  unfold force_close. apply preserves_bind; [apply replay_journal_get|].
  intros ops. destruct (0 <? List.length ops)%nat; [|apply preserves_ret].
  destruct (iloc_last df) as [last_bar|] eqn:Hlast; [|apply preserves_raise].
  apply preserves_for_each. intros pos. unfold force_close_position.
  apply preserves_bind.
  - apply replay_journal_close; [auto|].
    exists last_bar. split; [apply iloc_last_In; exact Hlast|reflexivity].
  - intros [t|]; [apply preserves_ret|apply preserves_raise].
Qed.

End Writes.

(** X17: under any schedule of faults, everything the replay of a symbol
    writes is of three kinds: a position for that symbol, open, with a
    positive size, both levels present, opened at the time stamp of a bar of
    the processed frame and sized with the ATR of that bar; a status update;
    or a trade whose reason is "stop_loss", "take_profit" or
    "End of Backtest" and whose close time is the time stamp of a bar of the
    processed frame. *)
Theorem replay_writes
        (pm : manager) (symbol : string) (df : list bar)
        (signals_data : list signal) (s : store) (fs : list bool) :
  Forall (replay_write symbol (dropna df))
         (journal
            (snd (backtest_symbol pm symbol df signals_data
                                  {| db := s; faults := fs;
                                     journal := [] |}))).
Proof.
  change (replay_journal
            symbol (dropna df)
            (snd (backtest_symbol pm symbol df signals_data
                                  {| db := s; faults := fs;
                                     journal := [] |}))).
  assert (H0 : replay_journal symbol (dropna df)
                              {| db := s; faults := fs; journal := [] |})
    by constructor.
  revert H0. generalize {| db := s; faults := fs; journal := [] |}.
  change (preserves (replay_journal symbol (dropna df))
                    (backtest_symbol pm symbol df signals_data)).
  unfold backtest_symbol.
  destruct (dropna df) as [|b0 rows] eqn:Edf; [apply preserves_ret|].
  destruct signals_data as [|sg sigs]; [apply preserves_ret|].
  apply preserves_bind.
  - apply replay_journal_bar_loop. intros x Hx. exact Hx.
  - intros _. apply replay_journal_force_close.
Qed.

(** ** Duplicates *)

Lemma same_open_closed (symbol side : string) (entry_price : Q)
      (p : position) :
  same_open symbol side entry_price (with_status Closed p) = false.
Proof. unfold same_open, is_open. simpl. apply andb_false_r. Qed.

Lemma existsb_set_status (symbol side : string) (entry_price : Q) (id : nat)
      (ps : list position) :
  existsb (same_open symbol side entry_price) ps = false ->
  existsb (same_open symbol side entry_price) (set_status id Closed ps)
  = false.
Proof.
  induction ps as [|a ps IH]; intros H; [reflexivity|].
  simpl in *. apply orb_false_iff in H. destruct H as [Ha Hps].
  destruct (Nat.eqb (p_id a) id); simpl.
  - rewrite same_open_closed, Hps. reflexivity.
  - rewrite Ha. apply IH. exact Hps.
Qed.

Lemma unique_open_set_status (id : nat) (ps : list position) :
  unique_open ps = true -> unique_open (set_status id Closed ps) = true.
Proof.
  induction ps as [|a ps IH]; intros H; [reflexivity|].
  simpl in *. apply andb_true_iff in H. destruct H as [Ha Hps].
  destruct (Nat.eqb (p_id a) id); simpl.
  - rewrite Hps. reflexivity.
  - rewrite (IH Hps), andb_true_r.
    destruct (is_open a); simpl in *; [|reflexivity].
    apply negb_true_iff in Ha. apply negb_true_iff.
    apply existsb_set_status. exact Ha.
Qed.

Lemma same_open_sym (p q : position) :
  is_open p = true ->
  is_open q = true ->
  same_open (p_symbol p) (p_side p) (p_entry_price p) q
  = same_open (p_symbol q) (p_side q) (p_entry_price q) p.
Proof.
  intros Hp Hq. unfold same_open. rewrite Hp, Hq.
  rewrite (String.eqb_sym (p_symbol q)), (String.eqb_sym (p_side q)),
    (Qeq_bool_comm (p_entry_price q)).
  reflexivity.
Qed.

Lemma unique_open_snoc (ps : list position) (p : position) :
  unique_open ps = true ->
  is_open p = true ->
  List.find (same_open (p_symbol p) (p_side p) (p_entry_price p)) ps = None ->
  unique_open (ps ++ [p])%list = true.
Proof.
  intros H Hp. induction ps as [|a ps IH]; intros Hfind.
  - simpl. rewrite Hp. reflexivity.
  - simpl in *. apply andb_true_iff in H. destruct H as [Ha Hps].
    destruct (same_open (p_symbol p) (p_side p) (p_entry_price p) a) eqn:Epa;
      [discriminate|].
    rewrite (IH Hps Hfind), andb_true_r.
    destruct (is_open a) eqn:Eopen; simpl in *; [|reflexivity].
    apply negb_true_iff in Ha. apply negb_true_iff.
    rewrite existsb_app, Ha. simpl. rewrite orb_false_r.
    rewrite (same_open_sym a p Eopen Hp). exact Epa.
Qed.

Lemma unique_invariant_get : preserves unique_invariant get_open_positions.
Proof.
  intros w H. rewrite get_open_positions_reliable; [exact H|apply H].
Qed.

Lemma unique_invariant_close (pm : manager) (position_id : nat)
      (exit_price : Q) (exit_time : Z) (reason : string) :
  preserves unique_invariant
            (close_position pm position_id exit_price exit_time reason).
Proof.
  intros w (Hf & Hu & Hj).
  destruct (close_position_reliable pm position_id exit_price exit_time
                                    reason w Hf) as [E|(p & _ & _ & E)];
    rewrite E; simpl.
  - repeat split; assumption.
  - pose proof (unique_open_set_status position_id _ Hu) as U.
    split; [reflexivity|]. split; [exact U|].
    apply Forall_app. split; [exact Hj|].
    repeat constructor; exact U.
Qed.

Lemma unique_invariant_admit (pm : manager) (symbol : string) (b : bar)
      (sg : signal) :
  preserves unique_invariant (admit_signal pm symbol b sg).
Proof.
  intros w (Hf & Hu & Hj).
  destruct (admit_signal_reliable pm symbol b sg w Hf)
    as [E|(atr & q & _ & _ & Hfind & E)]; rewrite E; simpl.
  - repeat split; assumption.
  - assert (U : unique_open
                  (positions (db w)
                   ++ [with_id (next_id (db w))
                         (position_doc symbol (s_signal_type sg) (s_value sg)
                            (b_timestamp b) q atr
                            (s_stop_loss sg) (s_take_profit sg))])%list
                = true).
    { apply unique_open_snoc; [exact Hu|reflexivity|exact Hfind]. }
    split; [reflexivity|]. split; [exact U|].
    apply Forall_app. split; [exact Hj|].
    repeat constructor; exact U.
Qed.

(** X18: on a driver without faults the replay never creates a duplicate:
    started on a store in which no two open positions share symbol, side and
    entry price, it keeps that after every write and at its end. *)
Theorem replay_opens_no_duplicate
        (pm : manager) (symbol : string) (df : list bar)
        (signals_data : list signal) (s : store) :
  unique_open (positions s) = true ->
  let w := snd (backtest_symbol pm symbol df signals_data (reliable s)) in
  Forall (fun e => unique_open (positions (snd e)) = true) (journal w)
  /\ unique_open (positions (db w)) = true.
Proof.
  intros H. cbv zeta.
  assert (J : unique_invariant
                (snd (backtest_symbol pm symbol df signals_data
                                      (reliable s)))).
  { apply backtest_symbol_preserves.
    - apply unique_invariant_get.
    - apply unique_invariant_close.
    - apply unique_invariant_admit.
    - split; [reflexivity|]. split; [exact H|constructor]. }
  destruct J as (_ & Hu & Hj). split; assumption.
Qed.

Lemma replay_opens_no_duplicate_witness :
  unique_open
    (positions
       (db (snd (backtest_symbol Sample.pm "BTC/USDT" Sample.df
                                 [Sample.far_signal; Sample.far_signal;
                                  Sample.near_signal]
                                 (reliable Sample.empty)))))
  = true.
Proof.
  apply (replay_opens_no_duplicate
           Sample.pm "BTC/USDT" Sample.df
           [Sample.far_signal; Sample.far_signal; Sample.near_signal]
           Sample.empty).
  reflexivity.
Defined.

(** ** The exit phase *)

Lemma exit_all (pm : manager) (df : list bar) :
  ~ leverage pm == 0 ->
  forall (l : list position) (w : world),
    faults w = [] ->
    store_wf (db w) ->
    NoDup (map p_id l) ->
    (forall p, In p l -> In p (positions (db w))) ->
    exists w',
      for_each (exit_position pm df) l w = (Returned tt, w')
      /\ faults w' = []
      /\ store_wf (db w')
      /\ (forall q, In q (positions (db w')) -> is_open q = true ->
                    In q (positions (db w))
                    /\ (In q l ->
                        check_exit_conditions pm q (data_since_entry df q)
                        = NotExited)).
Proof.
  intros Hlev l. induction l as [|p l IH]; intros w Hf Hwf Hl Hin.
  - exists w. split; [reflexivity|]. split; [exact Hf|]. split; [exact Hwf|].
    intros q Hq Hqo. split; [exact Hq|intros []].
  - inversion Hl as [|x xs Hnotin Hl']; subst.
    simpl. unfold bind. unfold exit_position at 1.
    destruct (check_exit_conditions pm p (data_since_entry df p))
      as [|x t r] eqn:Echeck.
    + unfold ret at 1. cbv beta iota.
      destruct (IH w Hf Hwf Hl') as (w' & E & Hf' & Hwf' & Hopen).
      { intros q Hq. apply Hin. right. exact Hq. }
      exists w'. split; [exact E|]. split; [exact Hf'|]. split; [exact Hwf'|].
      intros q Hq Hqo. destruct (Hopen q Hq Hqo) as [Hq1 Hq2].
      split; [exact Hq1|]. intros [<-|Hql]; [exact Echeck|auto].
    + unfold bind.
      destruct Hwf as [Hnd Hlt].
      rewrite (close_position_found pm p x t r w Hf
                 (find_by_id _ p Hnd (Hin p (or_introl eq_refl))) Hlev).
      cbv beta iota. unfold ret at 1. cbv beta iota.
      match goal with
      | |- context [for_each _ l ?W] =>
          destruct (IH W) as (w' & E & Hf' & Hwf' & Hopen)
      end.
      * reflexivity.
      * split; simpl.
        -- rewrite set_status_ids. exact Hnd.
        -- apply Forall_forall. intros y Hy.
           assert (Hid : In (p_id y) (map p_id (positions (db w)))).
           { rewrite <- (set_status_ids (p_id p) Closed). apply in_map.
             exact Hy. }
           apply in_map_iff in Hid. destruct Hid as (z & Hz & Hinz).
           rewrite Forall_forall in Hlt. rewrite <- Hz. apply Hlt. exact Hinz.
      * exact Hl'.
      * intros p' Hp'. simpl. apply set_status_keeps.
        -- apply Hin. right. exact Hp'.
        -- intros Heq. apply Hnotin. rewrite <- Heq. apply in_map. exact Hp'.
      * exists w'. split; [exact E|]. split; [exact Hf'|].
        split; [exact Hwf'|].
        intros q Hq Hqo. destruct (Hopen q Hq Hqo) as [Hq1 Hq2].
        simpl in Hq1.
        destruct (set_status_open_in _ _ _ Hq1 Hqo) as [Hq3 Hq4].
        split; [exact Hq3|]. intros [<-|Hql]; [|auto].
        exfalso. exact (Hq4 Hnd eq_refl).
Qed.

Lemma for_each_quiet (pm : manager) (df : list bar) (l : list position)
      (w : world) :
  (forall q, In q l ->
             check_exit_conditions pm q (data_since_entry df q) = NotExited) ->
  for_each (exit_position pm df) l w = (Returned tt, w).
Proof.
  induction l as [|p l IH]; intros H; [reflexivity|].
  simpl. unfold bind, exit_position at 1.
  rewrite (H p (or_introl eq_refl)). unfold ret at 1.
  apply IH. intros q Hq. apply H. right. exact Hq.
Qed.

(** X19: on a well-formed store with a driver without faults and a leverage
    that is not zero, the exit phase returns and leaves no open position with
    a pending exit; running it again changes nothing. *)
Theorem exit_phase_settles
        (pm : manager) (df : list bar) (w : world) :
  faults w = [] ->
  store_wf (db w) ->
  ~ leverage pm == 0 ->
  exists w',
    exit_phase pm df w = (Returned tt, w')
    /\ (forall q, In q (open_positions_of (db w')) ->
                  check_exit_conditions pm q (data_since_entry df q)
                  = NotExited)
    /\ exit_phase pm df w' = (Returned tt, w').
Proof.
  intros Hf Hwf Hlev. unfold exit_phase, bind.
  rewrite (get_open_positions_reliable w Hf).
  destruct (exit_all pm df Hlev (open_positions_of (db w)) w Hf Hwf)
    as (w' & E & Hf' & Hwf' & Hopen).
  { apply NoDup_ids_filter. apply Hwf. }
  { intros q Hq. apply filter_In in Hq. apply Hq. }
  exists w'. split; [exact E|].
  assert (Hquiet : forall q, In q (open_positions_of (db w')) ->
                             check_exit_conditions pm q (data_since_entry df q)
                             = NotExited).
  { intros q Hq. apply filter_In in Hq. destruct Hq as [Hq Hqo].
    destruct (Hopen q Hq Hqo) as [Hq1 Hq2]. apply Hq2.
    apply filter_In. split; assumption. }
  split; [exact Hquiet|].
  rewrite (get_open_positions_reliable w' Hf').
  apply for_each_quiet. exact Hquiet.
Qed.

Lemma exit_phase_settles_witness :
  exists w',
    exit_phase Sample.pm Sample.df (reliable (Sample.one Open))
    = (Returned tt, w')
    /\ (forall q, In q (open_positions_of (db w')) ->
                  check_exit_conditions Sample.pm q
                                        (data_since_entry Sample.df q)
                  = NotExited)
    /\ exit_phase Sample.pm Sample.df w' = (Returned tt, w').
Proof.
  apply exit_phase_settles.
  - reflexivity.
  - split.
    + repeat constructor. intros [].
    + repeat constructor.
  - discriminate.
Defined.

(* ================================================================== *)
(** * Properties of the performance figures *)

Lemma cumsum_from_length (acc : Q) (l : list Q) :
  List.length (cumsum_from acc l) = List.length l.
Proof.
  revert acc. induction l as [|x l IH]; intros acc; simpl;
    [reflexivity|rewrite IH; reflexivity].
Qed.

Lemma last_cons_default {A} (l : list A) (a d : A) :
  last (a :: l) d = last l a.
Proof.
  revert a d. induction l as [|b l IH]; intros a d; [reflexivity|].
  change (last (a :: b :: l) d) with (last (b :: l) d).
  rewrite (IH b d), (IH b a). reflexivity.
Qed.

Lemma cumsum_from_last (acc : Q) (l : list Q) :
  last (cumsum_from acc l) acc = fold_left Qplus l acc.
Proof.
  revert acc. induction l as [|x l IH]; intros acc; [reflexivity|].
  simpl cumsum_from. rewrite last_cons_default. apply IH.
Qed.

Lemma fold_left_Qplus_compat (l : list Q) (a b : Q) :
  a == b -> fold_left Qplus l a == fold_left Qplus l b.
Proof.
  revert a b. induction l as [|x l IH]; intros a b H; simpl; [exact H|].
  apply IH. rewrite H. reflexivity.
Qed.

Lemma fold_left_Qplus_shift (l : list Q) (a : Q) :
  fold_left Qplus l a == a + fold_left Qplus l 0.
Proof.
  revert a. induction l as [|x l IH]; intros a; simpl; [ring|].
  rewrite (IH (a + x)), (IH (0 + x)). ring.
Qed.

(** X20: the equity curve has one point per trade and ends on the total
    profit and loss. *)
Theorem equity_curve_ends_on_total (trades_list : list trade) :
  List.length (equity_curve trades_list) = List.length trades_list
  /\ last (equity_curve trades_list) 0 == total_pnl trades_list.
Proof.
  unfold equity_curve, total_pnl, series_sum.
  destruct trades_list as [|t rest]; [split; reflexivity|].
  simpl map. simpl cumsum. split.
  - simpl. rewrite cumsum_from_length, length_map. reflexivity.
  - rewrite last_cons_default, cumsum_from_last. simpl fold_left.
    apply fold_left_Qplus_compat. ring.
Qed.

Lemma fold_left_Qmax_ge (l : list Q) (a : Q) : a <= fold_left Qmax l a.
Proof.
  revert a. induction l as [|x l IH]; intros a; simpl; [apply Qle_refl|].
  eapply Qle_trans; [apply Q.le_max_l|apply IH].
Qed.

Lemma fold_left_Qmax_zero (l : list Q) (a : Q) :
  a == 0 -> Forall (fun d => d == 0) l -> fold_left Qmax l a == 0.
Proof.
  revert a. induction l as [|x l IH]; intros a Ha Hl; simpl; [exact Ha|].
  inversion Hl as [|y ys Hx Hrest]; subst. apply IH; [|exact Hrest].
  destruct (Q.max_spec a x) as [[_ ->]|[_ ->]]; assumption.
Qed.

Lemma drawdown_flat (l : list Q) (acc peak : Q) :
  peak == acc ->
  Forall (fun x => 0 <= x) l ->
  Forall (fun d => d == 0)
         (subtract (maximum_accumulate_from peak (cumsum_from acc l))
                   (cumsum_from acc l)).
Proof.
  revert acc peak. induction l as [|x l IH]; intros acc peak Hp Hl; simpl;
    [constructor|].
  inversion Hl as [|y ys Hx Hrest]; subst.
  assert (Hmax : Qmax peak (acc + x) == acc + x).
  { apply Q.max_r. rewrite Hp. lra. }
  constructor.
  - rewrite Hmax. ring.
  - apply IH; assumption.
Qed.

(** X21: with at least one trade the maximal drawdown is a number and is
    not negative; it is measured from the running maximum of the equity curve
    itself, so the loss of the first trade is not counted: when no later
    trade loses, the maximal drawdown is zero. *)
Theorem max_drawdown_from_first_point (t : trade) (rest : list trade) :
  exists d,
    max_drawdown (t :: rest) = Some d
    /\ 0 <= d
    /\ (Forall (fun t' => 0 <= t_pnl t') rest -> d == 0).
Proof.
  unfold max_drawdown, equity_curve. simpl.
  eexists. split; [reflexivity|]. split.
  - eapply Qle_trans; [|apply fold_left_Qmax_ge]. lra.
  - intros Hrest. apply fold_left_Qmax_zero; [ring|].
    apply drawdown_flat; [reflexivity|].
    apply Forall_map. exact Hrest.
Qed.

Lemma max_drawdown_from_first_point_witness :
  exists d,
    max_drawdown [Cases.mktrade (-100); Cases.mktrade 20; Cases.mktrade 0]
    = Some d
    /\ d == 0.
Proof.
  destruct (max_drawdown_from_first_point
              (Cases.mktrade (-100)) [Cases.mktrade 20; Cases.mktrade 0])
    as (d & E & _ & H).
  exists d. split; [exact E|]. apply H.
  repeat constructor; discriminate.
Defined.

Lemma filter_length_le {A} (f : A -> bool) (l : list A) :
  (List.length (filter f l) <= List.length l)%nat.
Proof.
  induction l as [|a l IH]; simpl; [lia|].
  destruct (f a); simpl; lia.
Qed.

Lemma wins_and_losses (l : list trade) :
  (List.length (win_trades l) + List.length (loss_trades l)
   <= List.length l)%nat.
Proof.
  unfold win_trades, loss_trades.
  induction l as [|t l IH]; simpl; [lia|].
  destruct (Qlt_bool 0 (t_pnl t)) eqn:Ew;
    destruct (Qlt_bool (t_pnl t) 0) eqn:El; simpl; try lia.
  apply Qlt_bool_iff in Ew. apply Qlt_bool_iff in El. lra.
Qed.

(** X22: with at least one trade the win rate is a number between 0 and 1;
    a trade with a result of exactly zero is neither a win nor a loss, so wins
    and losses together are at most all trades. *)
Theorem win_rate_bounds (t : trade) (rest : list trade) :
  (exists r, win_rate (t :: rest) = Some r /\ 0 <= r /\ r <= 1)
  /\ (List.length (win_trades (t :: rest))
      + List.length (loss_trades (t :: rest))
      <= List.length (t :: rest))%nat.
Proof.
  split; [|apply wins_and_losses].
  unfold win_rate. set (l := t :: rest).
  assert (Hpos : (0 < List.length l)%nat) by (simpl; lia).
  replace (0 <? List.length l)%nat with true
    by (symmetry; apply Nat.ltb_lt; exact Hpos).
  eexists. split; [reflexivity|].
  pose proof (filter_length_le (fun t => Qlt_bool 0 (t_pnl t)) l) as Hle.
  fold (win_trades l) in Hle.
  assert (Hd : 0 < inject_Z (Z.of_nat (List.length l))).
  { change 0 with (inject_Z 0). rewrite <- Zlt_Qlt. lia. }
  split.
  - apply Qle_shift_div_l; [exact Hd|]. rewrite Qmult_0_l.
    change 0 with (inject_Z 0). rewrite <- Zle_Qle. lia.
  - apply Qle_shift_div_r; [exact Hd|]. rewrite Qmult_1_l.
    rewrite <- Zle_Qle. lia.
Qed.

Lemma sum_of_positives (l : list Q) (acc : Q) :
  Forall (fun x => 0 < x) l -> acc <= fold_left Qplus l acc.
Proof.
  revert acc. induction l as [|x l IH]; intros acc H; simpl;
    [apply Qle_refl|].
  inversion H as [|y ys Hx Hrest]; subst.
  eapply Qle_trans; [|apply IH; exact Hrest]. lra.
Qed.

Lemma sum_of_negatives (l : list Q) (acc : Q) :
  Forall (fun x => x < 0) l -> fold_left Qplus l acc <= acc.
Proof.
  revert acc. induction l as [|x l IH]; intros acc H; simpl;
    [apply Qle_refl|].
  inversion H as [|y ys Hx Hrest]; subst.
  eapply Qle_trans; [apply IH; exact Hrest|]. lra.
Qed.

(** X23: as soon as one trade has lost, the profit factor is a number that
    is not negative, and the sum of the losses it divides by is strictly
    negative, so the division is by a positive number. *)
Theorem profit_factor_defined (trades_list : list trade) (t : trade) :
  In t trades_list ->
  t_pnl t < 0 ->
  exists f,
    profit_factor trades_list = Some f
    /\ 0 <= f
    /\ series_sum (map t_pnl (loss_trades trades_list)) < 0.
Proof.
  intros Hin Hneg. unfold profit_factor.
  assert (Hl : In t (loss_trades trades_list)).
  { apply filter_In. split; [exact Hin|]. apply Qlt_bool_iff. exact Hneg. }
  assert (Hall : Forall (fun x => x < 0)
                        (map t_pnl (loss_trades trades_list))).
  { apply Forall_map. apply Forall_forall. intros x Hx.
    apply filter_In in Hx. apply Qlt_bool_iff. apply Hx. }
  assert (Hwin : Forall (fun x => 0 < x)
                        (map t_pnl (win_trades trades_list))).
  { apply Forall_map. apply Forall_forall. intros x Hx.
    apply filter_In in Hx. apply Qlt_bool_iff. apply Hx. }
  assert (Hsum : series_sum (map t_pnl (loss_trades trades_list)) < 0).
  { unfold series_sum.
    destruct (loss_trades trades_list) as [|a l]; [contradiction|].
    simpl map in *. simpl fold_left.
    inversion Hall as [|y ys Ha Hrest]; subst.
    eapply Qle_lt_trans; [apply sum_of_negatives; exact Hrest|]. lra. }
  destruct (loss_trades trades_list) as [|a l] eqn:El; [contradiction|].
  simpl. eexists. split; [reflexivity|]. split; [|exact Hsum].
  apply Qle_shift_div_l.
  - apply Qlt_le_trans with (- series_sum (t_pnl a :: map t_pnl l)).
    + simpl in Hsum. simpl. lra.
    + rewrite <- Qabs_opp. apply Qle_Qabs.
  - rewrite Qmult_0_l. apply (sum_of_positives _ 0 Hwin).
Qed.

Lemma profit_factor_defined_witness :
  exists f,
    profit_factor [Cases.mktrade 30; Cases.mktrade (-10); Cases.mktrade 0]
    = Some f
    /\ 0 <= f.
Proof.
  destruct (profit_factor_defined
              [Cases.mktrade 30; Cases.mktrade (-10); Cases.mktrade 0]
              (Cases.mktrade (-10)))
    as (f & E & H & _).
  - right. left. reflexivity.
  - reflexivity.
  - exists f. split; assumption.
Defined.

(* ================================================================== *)
(** * Properties of the signal generator *)

Lemma signal_loop_In (ic : indicator) (d1 : d1_row) (rows : list h1_row)
      (sg : signal) :
  In sg (signal_loop ic d1 rows)
  <-> exists h1, In h1 rows /\ signal_for ic d1 h1 = Some sg.
Proof.
  induction rows as [|h rows IH]; simpl.
  - split; [intros []|intros (h1 & [] & _)].
  - destruct (signal_for ic d1 h) as [sg'|] eqn:E; simpl; rewrite IH; split.
    + intros [<-|(h1 & Hin & Hs)];
        [exists h; split; [left; reflexivity|exact E]
        |exists h1; split; [right; exact Hin|exact Hs]].
    + intros (h1 & [<-|Hin] & Hs);
        [left; congruence|right; exists h1; split; assumption].
    + intros (h1 & Hin & Hs). exists h1. split; [right; exact Hin|exact Hs].
    + intros (h1 & [<-|Hin] & Hs); [congruence|].
      exists h1. split; assumption.
Qed.

Lemma signals_to_insert_In (ic : indicator) (df_h1 : list h1_row)
      (df_d1 : list d1_row) (sg : signal) :
  In sg (signals_to_insert ic df_h1 df_d1) ->
  exists d1 h1,
    rev df_d1 = d1 :: tl (rev df_d1)
    /\ In h1 (skipn 50 df_h1)
    /\ signal_for ic d1 h1 = Some sg.
Proof.
  unfold signals_to_insert.
  destruct df_h1 as [|h0 rows]; [intros []|].
  destruct (rev df_d1) as [|d1 ds]; [intros []|].
  intros H. apply signal_loop_In in H. destruct H as (h1 & Hin & Hs).
  exists d1, h1. repeat split; assumption.
Qed.

Lemma positive_not_negative (x : option Q) :
  positive x = true -> negative x = false.
Proof.
  destruct x as [v|]; simpl; [|reflexivity].
  intros H. apply Qlt_bool_iff in H.
  destruct (Qlt_bool v 0) eqn:E; [|reflexivity].
  apply Qlt_bool_iff in E. lra.
Qed.

Lemma signal_for_side (ic : indicator) (d1 : d1_row) (h1 : h1_row)
      (sg : signal) :
  signal_for ic d1 h1 = Some sg ->
  s_signal_type sg
  = (if positive (d_momentum_14 d1) then "long" else "short")
  /\ (positive (d_momentum_14 d1) = true
      \/ negative (d_momentum_14 d1) = true).
Proof.
  unfold signal_for.
  destruct (positive (d_momentum_14 d1)) eqn:Ep.
  - rewrite (positive_not_negative _ Ep), !andb_true_r, andb_false_r,
      orb_false_r.
    destruct (Qle_bool _ (h_close h1)); [|discriminate].
    intros H. injection H as <-. split; [reflexivity|left; reflexivity].
  - rewrite andb_false_r. simpl.
    destruct (negative (d_momentum_14 d1)); [|rewrite andb_false_r;
                                               discriminate].
    rewrite andb_true_r.
    destruct (Qle_bool (h_close h1) _); [|discriminate].
    intros H. injection H as <-. split; [reflexivity|right; reflexivity].
Qed.

(** X24: all the signals of one call of [generate_signals] have the same
    direction, the one given by the sign of the momentum of the last daily
    row: "long" when it is positive, "short" when it is negative. *)
Theorem signals_share_direction
        (ic : indicator) (df_h1 : list h1_row) (df_d1 : list d1_row)
        (sg1 sg2 : signal) :
  In sg1 (signals_to_insert ic df_h1 df_d1) ->
  In sg2 (signals_to_insert ic df_h1 df_d1) ->
  s_signal_type sg1 = s_signal_type sg2
  /\ (s_signal_type sg1 = "long" \/ s_signal_type sg1 = "short").
Proof.
  intros H1 H2.
  destruct (signals_to_insert_In _ _ _ _ H1) as (d1 & h1 & Hd1 & _ & Hs1).
  destruct (signals_to_insert_In _ _ _ _ H2) as (d2 & h2 & Hd2 & _ & Hs2).
  assert (d2 = d1) by congruence. subst d2.
  destruct (signal_for_side _ _ _ _ Hs1) as [E1 _].
  destruct (signal_for_side _ _ _ _ Hs2) as [E2 _].
  split; [congruence|].
  rewrite E1. destruct (positive (d_momentum_14 d1)); auto.
Qed.

Lemma signals_share_direction_witness :
  s_signal_type
    {| s_timestamp := 51; s_signal_type := "long"; s_value := 100;
       s_stop_loss := Some (100 - 2 * 2); s_take_profit := Some (100 + 3 * 2) |}
  = "long".
Proof.
  destruct (signals_share_direction
              Cases.ic Cases.h1_frame Cases.d1_frame
              {| s_timestamp := 51; s_signal_type := "long"; s_value := 100;
                 s_stop_loss := Some (100 - 2 * 2);
                 s_take_profit := Some (100 + 3 * 2) |}
              {| s_timestamp := 51; s_signal_type := "long"; s_value := 100;
                 s_stop_loss := Some (100 - 2 * 2);
                 s_take_profit := Some (100 + 3 * 2) |})
    as [_ [H|H]].
  - vm_compute. left. reflexivity.
  - vm_compute. left. reflexivity.
  - exact H.
  - discriminate H.
Defined.

(** X25: with positive multiples and a positive ATR on every hourly row, a
    generated signal takes its time stamp and its entry price from a row
    after the first fifty, and its levels bracket the entry price: stop below
    and target above for a long signal, the other way round for a short
    one. *)
Theorem signal_levels_bracket_entry
        (ic : indicator) (df_h1 : list h1_row) (df_d1 : list d1_row)
        (sg : signal) :
  0 < i_stop_loss_atr ic ->
  0 < i_take_profit_atr ic ->
  Forall (fun h => 0 < h_atr_14 h) df_h1 ->
  In sg (signals_to_insert ic df_h1 df_d1) ->
  exists h1 stop take,
    In h1 (skipn 50 df_h1)
    /\ s_timestamp sg = h_timestamp h1
    /\ s_value sg = h_close h1
    /\ s_stop_loss sg = Some stop
    /\ s_take_profit sg = Some take
    /\ (s_signal_type sg = "long" -> stop < s_value sg /\ s_value sg < take)
    /\ (s_signal_type sg = "short" -> take < s_value sg /\ s_value sg < stop).
Proof.
  intros Hsl Htp Hatr Hin.
  destruct (signals_to_insert_In _ _ _ _ Hin) as (d1 & h1 & _ & Hh1 & Hs).
  assert (Ha : 0 < h_atr_14 h1).
  { rewrite Forall_forall in Hatr. apply Hatr.
    rewrite <- (firstn_skipn 50 df_h1). apply in_or_app. right. exact Hh1. }
  assert (H1 : 0 < i_stop_loss_atr ic * h_atr_14 h1)
    by (apply Qmult_lt_0_compat; assumption).
  assert (H2 : 0 < i_take_profit_atr ic * h_atr_14 h1)
    by (apply Qmult_lt_0_compat; assumption).
  unfold signal_for in Hs.
  match type of Hs with
  | (if ?c1 || ?c2 then _ else _) = _ =>
      destruct c1 eqn:E1; [|destruct c2 eqn:E2]; simpl in Hs;
      try discriminate; injection Hs as <-
  end.
  - exists h1. eexists. eexists. split; [exact Hh1|].
    repeat (split; [reflexivity|]). simpl.
    split; [intros _; split; lra|discriminate].
  - exists h1. eexists. eexists. split; [exact Hh1|].
    repeat (split; [reflexivity|]). simpl.
    split; [discriminate|intros _; split; lra].
Qed.

Lemma signal_levels_bracket_entry_witness :
  exists h1 stop take,
    In h1 (skipn 50 Cases.h1_frame)
    /\ (51 = h_timestamp h1)%Z
    /\ 100 = h_close h1
    /\ Some (100 - 2 * 2) = Some stop
    /\ Some (100 + 3 * 2) = Some take
    /\ ("long" = "long" -> stop < 100 /\ 100 < take)
    /\ ("long" = "short" -> take < 100 /\ 100 < stop).
Proof.
  apply (signal_levels_bracket_entry
           Cases.ic Cases.h1_frame Cases.d1_frame
           {| s_timestamp := 51; s_signal_type := "long"; s_value := 100;
              s_stop_loss := Some (100 - 2 * 2);
              s_take_profit := Some (100 + 3 * 2) |}).
  - reflexivity.
  - reflexivity.
  - unfold Cases.h1_frame. apply Forall_app. split.
    + apply Forall_forall. intros h Hh. apply repeat_spec in Hh. subst h.
      reflexivity.
    + repeat constructor.
  - vm_compute. left. reflexivity.
Defined.

(** X26: the stop of a generated signal is the stop the limit check derives
    for the same side, entry price and ATR when both read the same multiple:
    for a position opened from the signal with that ATR, the stored risk
    [|entry - stop| * qty] is the risk the limit check has counted. *)
Theorem generated_stop_is_derived_stop
        (ic : indicator) (pm : manager) (d1 : d1_row) (h1 : h1_row)
        (sg : signal) (symbol : string) (entry_time : Z) (qty : Q) :
  signal_for ic d1 h1 = Some sg ->
  i_stop_loss_atr ic == stop_loss_atr pm ->
  let p := position_doc symbol (s_signal_type sg) (s_value sg) entry_time qty
                        (h_atr_14 h1) (s_stop_loss sg) (s_take_profit sg) in
  exists stop,
    p_stop_loss p = Some stop
    /\ stop == stop_loss_price pm (p_side p) (p_entry_price p) (p_atr p)
    /\ Qabs (p_entry_price p - stop) * p_qty p == candidate_risk pm p.
Proof.
  intros Hs Hm. cbv zeta. unfold signal_for in Hs.
  assert (forall stop : Q,
             stop == stop_loss_price pm (s_signal_type sg) (s_value sg)
                                     (h_atr_14 h1) ->
             Qabs (s_value sg - stop) * qty
             == Qabs (s_value sg
                      - stop_loss_price pm (s_signal_type sg) (s_value sg)
                                        (h_atr_14 h1)) * qty) as Hrisk.
  { intros stop ->. reflexivity. }
  match type of Hs with
  | (if ?c1 || ?c2 then _ else _) = _ =>
      destruct c1 eqn:E1; [|destruct c2 eqn:E2]; simpl in Hs;
      try discriminate; injection Hs as <-
  end.
  - eexists. split; [reflexivity|].
    assert (E : h_close h1 - i_stop_loss_atr ic * h_atr_14 h1
                == stop_loss_price pm "long" (h_close h1) (h_atr_14 h1)).
    { unfold stop_loss_price. simpl. rewrite Hm. ring. }
    split; [exact E|exact (Hrisk _ E)].
  - eexists. split; [reflexivity|].
    assert (E : h_close h1 + i_stop_loss_atr ic * h_atr_14 h1
                == stop_loss_price pm "short" (h_close h1) (h_atr_14 h1)).
    { unfold stop_loss_price. simpl. rewrite Hm. ring. }
    split; [exact E|exact (Hrisk _ E)].
Qed.

Lemma generated_stop_is_derived_stop_witness :
  exists stop,
    Some (100 - 2 * 2) = Some stop
    /\ stop == stop_loss_price Sample.pm "long" 100 2.
Proof.
  destruct (generated_stop_is_derived_stop
              Cases.ic Sample.pm {| d_momentum_14 := Some 3 |}
              (Cases.mkh1 51 100 100 90)
              {| s_timestamp := 51; s_signal_type := "long"; s_value := 100;
                 s_stop_loss := Some (100 - 2 * 2);
                 s_take_profit := Some (100 + 3 * 2) |}
              "BTC/USDT" 51 25 eq_refl)
    as (stop & E & H & _).
  - reflexivity.
  - exists stop. split; [exact E|exact H].
Defined.

Lemma signal_loop_length (ic : indicator) (d1 : d1_row) (rows : list h1_row) :
  (List.length (signal_loop ic d1 rows) <= List.length rows)%nat.
Proof.
  induction rows as [|h rows IH]; simpl; [lia|].
  destruct (signal_for ic d1 h); simpl; lia.
Qed.

Lemma signal_loop_nan (ic : indicator) (d1 : d1_row) (rows : list h1_row) :
  d_momentum_14 d1 = None -> signal_loop ic d1 rows = [].
Proof.
  intros H. induction rows as [|h rows IH]; simpl; [reflexivity|].
  unfold signal_for. rewrite H. simpl. rewrite !andb_false_r. simpl.
  exact IH.
Qed.

(** X27: [generate_signals] builds at most one signal per hourly row after
    the first fifty, and none at all when the hourly frame has at most fifty
    rows, when the daily frame is empty, or when the momentum of the last
    daily row is NaN. *)
Theorem signals_after_warm_up
        (ic : indicator) (df_h1 : list h1_row) (df_d1 : list d1_row) :
  (List.length (signals_to_insert ic df_h1 df_d1)
   <= List.length df_h1 - 50)%nat
  /\ (df_d1 = [] -> signals_to_insert ic df_h1 df_d1 = [])
  /\ (forall d1 ds, rev df_d1 = d1 :: ds -> d_momentum_14 d1 = None ->
                    signals_to_insert ic df_h1 df_d1 = []).
Proof.
  unfold signals_to_insert. split; [|split].
  - destruct df_h1 as [|h0 rows]; [simpl; lia|].
    destruct (rev df_d1) as [|d1 ds]; [simpl; lia|].
    eapply Nat.le_trans; [apply signal_loop_length|].
    rewrite length_skipn. lia.
  - intros ->. destruct df_h1; reflexivity.
  - intros d1 ds -> Hnan. destruct df_h1 as [|h0 rows]; [reflexivity|].
    apply signal_loop_nan. exact Hnan.
Qed.

(* ================================================================== *)
(** * Instances *)

Lemma check_position_limit_reads_only_witness :
  0 < calculate_position_size Sample.pm "BTC/USDT" 100 2 10000.
Proof.
  destruct (check_position_limit_reads_only
              Sample.pm "BTC/USDT" "long" 100 2 (reliable Sample.empty))
    as (res & E & _ & _ & H).
  vm_compute in E. injection E as <-.
  destruct (H _ eq_refl) as [Hq _]. exact Hq.
Defined.

Lemma bar_loop_cursor_witness :
  exists consumed left,
    [Sample.near_signal; Sample.signal_at 110;
     {| s_timestamp := 9; s_signal_type := "long"; s_value := 120;
        s_stop_loss := Some 116; s_take_profit := Some 126 |}]
    = (consumed ++ left)%list
    /\ match left with
       | [] => True
       | sg :: _ => (4 < s_timestamp sg)%Z
       end.
Proof.
  destruct (bar_loop_cursor
              Sample.pm "BTC/USDT" Sample.df Sample.df
              [Sample.near_signal; Sample.signal_at 110;
               {| s_timestamp := 9; s_signal_type := "long"; s_value := 120;
                  s_stop_loss := Some 116; s_take_profit := Some 126 |}]
              (reliable Sample.empty))
    as (consumed & left & Hs & _ & _ & Hl).
  exists consumed, left. split; [exact Hs|].
  apply (Hl (Sample.mkbar 4 97 99 95 96)). reflexivity.
Defined.

Lemma signals_after_warm_up_witness :
  signals_to_insert Cases.ic Cases.h1_frame [] = []
  /\ signals_to_insert Cases.ic Cases.h1_frame [ {| d_momentum_14 := None |} ]
     = [].
Proof.
  split.
  - apply (proj1 (proj2 (signals_after_warm_up Cases.ic Cases.h1_frame []))).
    reflexivity.
  - apply (proj2 (proj2 (signals_after_warm_up
                           Cases.ic Cases.h1_frame
                           [ {| d_momentum_14 := None |} ]))
                 {| d_momentum_14 := None |} []); reflexivity.
Defined.

(** The generator and the replay together, on the sample frames: one long
    signal, admitted at its bar with the size of the scenario. *)
Example generated_signal_is_admitted :
  signals_to_insert Cases.ic Cases.h1_frame Cases.d1_frame
  = [ {| s_timestamp := 51; s_signal_type := "long"; s_value := 100;
         s_stop_loss := Some (100 - 2 * 2);
         s_take_profit := Some (100 + 3 * 2) |} ]
  /\ map p_qty
         (positions
            (db (snd (bar_loop Sample.pm "BTC/USDT"
                               [Sample.mkbar 51 100 101 99 100]
                               [Sample.mkbar 51 100 101 99 100]
                               (signals_to_insert Cases.ic Cases.h1_frame
                                                  Cases.d1_frame)
                               (reliable Sample.empty)))))
     = [calculate_position_size Sample.pm "BTC/USDT" 100 2 10000].
Proof. split; vm_compute; reflexivity. Qed.
